(** * DigitMind: scoring, candidate generation and candidate filtering

    A shallow embedding of [main.cpp] of the DigitMind console game and the
    properties of its scoring function, its candidate generator, its
    candidate filter, its random selection and its console input loops.

    Conventions of the embedding:
    - a C++ [int] is a [Z]; the only arithmetic the program performs on
      [int]s are the increments of the two counters of a [Score] (at most
      four each, starting from 0), the loop counters of the generator, and
      [input[i] - '0'] on character codes, none of which can leave the
      range of [int];
    - [std::array<int, 4>] is a record of four [Z] fields read through
      [digit];
    - [std::vector<DigitCombination>] is a [list]; an iterator is the index
      it points at, and [end()] is the length of the list;
    - [std::cin] is a record holding the unread characters and the state
      bits of the stream. *)

From Stdlib Require Import Ascii String.
From Stdlib Require Import ZArith NArith QArith List Bool Lia Arith.
From Stdlib Require Import DecimalString Sorted.
From Stdlib Require Finite.
From Equations Require Import Equations.
From Equations.Prop Require Import Logic.
Import ListNotations.

#[local] Open Scope Z_scope.

(** ** Data model *)

(** [typedef std::array<int, 4> DigitCombination;] *)
Record DigitCombination : Type := mkCombination
  { d0 : Z; d1 : Z; d2 : Z; d3 : Z }.

(** [c[i]] for an index [i] in [0, 3]; the program never uses another
    index on a combination. *)
Definition digit (c : DigitCombination) (i : nat) : Z :=
  match i with
  | O => d0 c
  | 1%nat => d1 c
  | 2%nat => d2 c
  | _ => d3 c
  end.

(** [typedef std::vector<DigitCombination> CombinationList;] *)
Definition CombinationList : Type := list DigitCombination.

(** [struct Score], built by its default constructor as [(0, 0)]. *)
Record Score : Type := mkScore
  { right_position : Z; wrong_position : Z }.

Definition Score_default : Score := mkScore 0 0.

(** [Score::operator==] *)
Definition Score_eqb (a b : Score) : bool :=
  (right_position a =? right_position b)
  && (wrong_position a =? wrong_position b).

Definition DigitCombination_eqb (a b : DigitCombination) : bool :=
  (d0 a =? d0 b) && (d1 a =? d1 b) && (d2 a =? d2 b) && (d3 a =? d3 b).

(** The index values visited by [for (int i = 0; i < 4; i++)]. *)
Definition positions : list nat := [0; 1; 2; 3]%nat.

(** ** calculateScore *)

Definition incr_right (s : Score) : Score :=
  mkScore (right_position s + 1) (wrong_position s).

Definition incr_wrong (s : Score) : Score :=
  mkScore (right_position s) (wrong_position s + 1).

(** The inner loop over [j]: the first [j] with [guess[i] == code[j]]
    increments [wrong_position] and leaves the loop. *)
Fixpoint search_code (g : Z) (code : DigitCombination) (js : list nat)
    (score : Score) : Score :=
  match js with
  | [] => score
  | j :: js' =>
      if g =? digit code j then incr_wrong score
      else search_code g code js' score
  end.

(** One iteration of the outer loop over [i]. *)
Definition score_position (guess code : DigitCombination) (i : nat)
    (score : Score) : Score :=
  if digit guess i =? digit code i then incr_right score
  else search_code (digit guess i) code positions score.

Fixpoint score_loop (guess code : DigitCombination) (ps : list nat)
    (score : Score) : Score :=
  match ps with
  | [] => score
  | i :: ps' => score_loop guess code ps' (score_position guess code i score)
  end.

Definition calculateScore (guess code : DigitCombination) : Score :=
  score_loop guess code positions Score_default.

(** ** filterCombinations *)

(** [v.erase(it)]: the element at index [it] is removed, the elements behind
    it move one place forward, and the iterator returned points at the same
    index. *)
Definition erase (v : CombinationList) (it : nat) : CombinationList :=
  firstn it v ++ skipn (S it) v.

(** The [while (it != allCombinations.end())] loop.  The iterator starts at
    [begin()] and only moves forward one place at a time, so it equals
    [end()] exactly when no element is left at its index. *)
Equations filter_loop (guess : DigitCombination) (score : Score)
    (v : CombinationList) (it : nat) : CombinationList
    by wf (length v - it)%nat lt :=
  filter_loop guess score v it with inspect (nth_error v it) := {
    | exist _ None _ => v
    | exist _ (Some c) Hit with Score_eqb (calculateScore guess c) score := {
        | true => filter_loop guess score v (S it)
        | false => filter_loop guess score (erase v it) it } }.
Next Obligation.
  assert (it < length v)%nat by (apply nth_error_Some; congruence). lia.
Qed.
Next Obligation.
  assert (it < length v)%nat by (apply nth_error_Some; congruence).
  unfold erase. rewrite length_app, length_firstn, length_skipn. lia.
Qed.

(** [void filterCombinations(CombinationList&, const DigitCombination&,
    const Score&)]: the list after the call. *)
Definition filterCombinations (allCombinations : CombinationList)
    (guess : DigitCombination) (score : Score) : CombinationList :=
  filter_loop guess score allCombinations 0.

(** The candidates that [filterCombinations] is documented to keep: those
    whose score against [guess] equals the observed score. *)
Definition same_score (guess : DigitCombination) (score : Score)
    (c : DigitCombination) : bool :=
  Score_eqb (calculateScore guess c) score.

(** The observations of a game in which the computer guesses: each guess
    with the score the user entered for it.  [apply_observations] is the
    candidate list after the calls of [filterCombinations] that
    [performComputerMove] makes for them, in order. *)
Definition Observation : Type := (DigitCombination * Score)%type.

Definition apply_observations (obs : list Observation)
    (combinations : CombinationList) : CombinationList :=
  fold_left (fun v o => filterCombinations v (fst o) (snd o)) obs combinations.

(** Every observed score is the score of its guess against [secret]. *)
Definition truthful (secret : DigitCombination) (obs : list Observation)
  : Prop :=
  Forall (fun o => snd o = calculateScore (fst o) secret) obs.

(** ** generateAllCombinations *)

(** The values taken by the counter of [for (int i = 0; i < level; i++)],
    in order; none when [level <= 0]. *)
Definition counter_values (level : Z) : list Z :=
  map Z.of_nat (seq 0 (Z.to_nat level)).

(** A counting [for] loop whose body updates a state. *)
Definition for_loop {St : Type} (level : Z) (body : Z -> St -> St) (s : St)
  : St :=
  fold_left (fun acc i => body i acc) (counter_values level) s.

(** The condition guarding [push_back]. *)
Definition all_different (i j k l : Z) : bool :=
  negb (i =? j) && negb (i =? k) && negb (i =? l)
  && negb (j =? k) && negb (j =? l) && negb (k =? l).

Definition push_back (v : CombinationList) (c : DigitCombination)
  : CombinationList := v ++ [c].

Definition generateAllCombinations (level : Z) : CombinationList :=
  for_loop level (fun i =>
    for_loop level (fun j =>
      for_loop level (fun k =>
        for_loop level (fun l allCombinations =>
          if all_different i j k l
          then push_back allCombinations (mkCombination i j k l)
          else allCombinations)))) [].

(** What the loops over [l], over [k] and [l], and over [j], [k] and [l]
    append for fixed outer counters. *)
Definition combinations_ijk (level i j k : Z) : CombinationList :=
  flat_map (fun l => if all_different i j k l
                     then [mkCombination i j k l] else [])
           (counter_values level).

Definition combinations_ij (level i j : Z) : CombinationList :=
  flat_map (combinations_ijk level i j) (counter_values level).

Definition combinations_i (level i : Z) : CombinationList :=
  flat_map (combinations_ij level i) (counter_values level).

(** [x] differs from every element of [xs]; used to count the values a
    loop counter can take next to the outer counters. *)
Definition avoids (xs : list Z) (x : Z) : bool :=
  negb (existsb (Z.eqb x) xs).

Definition differ (a b : Z) : bool := negb (a =? b).

(** The data model's [DigitCombination]: four integers, each in
    [0, level-1], all distinct. *)
Definition digits_in_range (level : Z) (c : DigitCombination) : Prop :=
  (0 <= d0 c < level) /\ (0 <= d1 c < level)
  /\ (0 <= d2 c < level) /\ (0 <= d3 c < level).

Definition digits_distinct (c : DigitCombination) : Prop :=
  d0 c <> d1 c /\ d0 c <> d2 c /\ d0 c <> d3 c
  /\ d1 c <> d2 c /\ d1 c <> d3 c /\ d2 c <> d3 c.

Definition valid_combination (level : Z) (c : DigitCombination) : Prop :=
  digits_in_range level c /\ digits_distinct c.

(** ** selectRandomCombination *)

(** [CombinationList::size_type] is an unsigned 64-bit integer; its
    subtraction wraps around. *)
Definition size_modulus : N := 2 ^ 64.

Definition vector_size (v : CombinationList) : N := N.of_nat (length v).

Definition size_sub (a b : N) : N := ((a + size_modulus - b) mod size_modulus)%N.

(** [std::uniform_int_distribution<size_type> dis(a, b)] *)
Record uniform_int_distribution : Type := mkDistribution
  { dist_a : N; dist_b : N }.

(** The results of [dis(gen)]: the integers [i] with [a <= i <= b], which
    the distribution produces with equal probability [1/(b-a+1)].  They are
    listed once each, so that the probability of an event is the fraction of
    this list on which it holds. *)
Definition outcomes (dis : uniform_int_distribution) : list N :=
  map (fun n => (dist_a dis + N.of_nat n)%N)
      (seq 0 (N.to_nat (dist_b dis - dist_a dis + 1))).

Definition probability {A : Type} (event : A -> bool) (space : list A) : Q :=
  Qmake (Z.of_nat (length (filter event space))) (Pos.of_nat (length space)).

(** The distribution that [selectRandomCombination] builds. *)
Definition selection_distribution (combinations : CombinationList)
  : uniform_int_distribution :=
  mkDistribution 0 (size_sub (vector_size combinations) 1).

(** [combinations[drawn]], where [drawn] is the result of [dis(gen)];
    [None] stands for the undefined read past the end of the vector. *)
Definition selectRandomCombination (combinations : CombinationList)
    (drawn : N) : option DigitCombination :=
  nth_error combinations (N.to_nat drawn).

(** The selection returned [c]. *)
Definition returns (c : DigitCombination) (r : option DigitCombination)
  : bool :=
  match r with
  | Some c' => DigitCombination_eqb c' c
  | None => false
  end.

(** ** std::cin *)

(** The unread characters of standard input and the two state bits the
    program can observe; an empty [unread] is the end of the input. *)
Record istream : Type := mkIstream
  { unread : list ascii; failbit : bool; eofbit : bool }.

Definition good (s : istream) : bool := negb (failbit s) && negb (eofbit s).

Definition newline : string := String (ascii_of_nat 10) EmptyString.

(** Standard input holding the characters of [text], nothing read yet. *)
Definition stream_of (text : string) : istream :=
  mkIstream (list_ascii_of_string text) false false.

(** [cin.fail()] *)
Definition fail (s : istream) : bool := failbit s.

(** [cin.clear()] *)
Definition clear (s : istream) : istream := mkIstream (unread s) false false.

Definition setstate_fail (s : istream) : istream :=
  mkIstream (unread s) true (eofbit s).

Definition char_code (c : ascii) : Z := Z.of_N (N_of_ascii c).

Definition isspace (c : ascii) : bool :=
  let n := char_code c in (n =? 32) || ((9 <=? n) && (n <=? 13)).

Definition isdigit (c : ascii) : bool :=
  let n := char_code c in (48 <=? n) && (n <=? 57).

Fixpoint skip_whitespace (cs : list ascii) : list ascii :=
  match cs with
  | c :: cs' => if isspace c then skip_whitespace cs' else cs
  | [] => []
  end.

(** The longest prefix of characters satisfying [p], and the rest. *)
Fixpoint span (p : ascii -> bool) (cs : list ascii)
  : list ascii * list ascii :=
  match cs with
  | c :: cs' =>
      if p c then let (taken, rest) := span p cs' in (c :: taken, rest)
      else ([], cs)
  | [] => ([], [])
  end.

Definition decimal_value (ds : list ascii) : Z :=
  fold_left (fun acc c => 10 * acc + (char_code c - 48)) ds 0.

Definition INT_MAX : Z := 2147483647.
Definition INT_MIN : Z := -2147483648.

(** [cin >> x] for an [int x] holding [old].  A stream that is not good is
    left alone, with [failbit] set and [x] untouched; so is a stream whose
    input ends in the leading white space.  Otherwise an optional sign and
    the decimal digits behind it are extracted: without a digit [x] becomes
    0 and [failbit] is set; a value outside [int] is replaced by the nearest
    bound and [failbit] is set. *)
Definition read_int (s : istream) (old : Z) : Z * istream :=
  if negb (good s) then (old, setstate_fail s)
  else
    match skip_whitespace (unread s) with
    | [] => (old, mkIstream [] true true)
    | c :: cs =>
        let negative := char_code c =? 45 in
        let signed := negative || (char_code c =? 43) in
        let (ds, rest) := span isdigit (if signed then cs else c :: cs) in
        let at_end := match rest with [] => true | _ => false end in
        match ds with
        | [] => (0, mkIstream rest true at_end)
        | _ =>
            let v := if negative then - decimal_value ds
                     else decimal_value ds in
            if v >? INT_MAX then (INT_MAX, mkIstream rest true at_end)
            else if v <? INT_MIN then (INT_MIN, mkIstream rest true at_end)
            else (v, mkIstream rest false at_end)
        end
    end.

(** The characters left once a line has been dropped through its newline;
    [None] when the input ends before a newline. *)
Fixpoint drop_line (cs : list ascii) : option (list ascii) :=
  match cs with
  | c :: cs' => if char_code c =? 10 then Some cs' else drop_line cs'
  | [] => None
  end.

(** [cin.ignore(std::numeric_limits<std::streamsize>::max(), '\n')] *)
Definition ignore_line (s : istream) : istream :=
  if negb (good s) then setstate_fail s
  else
    match drop_line (unread s) with
    | Some rest => mkIstream rest false false
    | None => mkIstream [] false true
    end.

Definition nonspace (c : ascii) : bool := negb (isspace c).

(** [cin >> input] for a [std::string input]: the characters up to the next
    white space.  The string is emptied before the extraction and stays
    empty when nothing is extracted. *)
Definition read_token (s : istream) (old : list ascii)
  : list ascii * istream :=
  if negb (good s) then (old, setstate_fail s)
  else
    match skip_whitespace (unread s) with
    | [] => (old, mkIstream [] true true)
    | cs =>
        let (token, rest) := span nonspace cs in
        (token, mkIstream rest false
                  match rest with [] => true | _ => false end)
    end.

(** ** getDifficultyLevel *)

(** The condition of the [while] loop. *)
Definition level_rejected (level : Z) (s : istream) : bool :=
  fail s || (level <? 4) || (level >? 10).

(** The body of the [while] loop: the state is reset, the rest of the line
    is dropped, and [level] is read again after the second prompt. *)
Definition ask_again (st : Z * istream) : Z * istream :=
  read_int (ignore_line (clear (snd st))) (fst st).

(** The [while] loop, run for at most [fuel] iterations; the result counts
    how often the prompt [Invalid input. ...] was printed. *)
Fixpoint level_loop (fuel : nat) (st : Z * istream) (prompts : nat)
  : option (Z * istream * nat) :=
  if level_rejected (fst st) (snd st) then
    match fuel with
    | O => None
    | S fuel' => level_loop fuel' (ask_again st) (S prompts)
    end
  else Some (fst st, snd st, prompts).

Definition getDifficultyLevel (fuel : nat) (s : istream)
  : option (Z * istream * nat) :=
  level_loop fuel (read_int s 0) 0.

(** The state of [getDifficultyLevel] after [n] runs of its loop body. *)
Fixpoint attempt (n : nat) (st : Z * istream) : Z * istream :=
  match n with
  | O => st
  | S n' => attempt n' (ask_again st)
  end.

(** ** menu *)

(** The [do ... while (choice > 2)] loop.  [choice] is not initialised:
    [indeterminate] is what it happens to hold on entry. *)
Fixpoint menu (fuel : nat) (indeterminate : Z) (s : istream)
  : option (Z * istream) :=
  match fuel with
  | O => None
  | S fuel' =>
      let (choice, s') := read_int s indeterminate in
      if choice >? 2 then menu fuel' choice s' else Some (choice, s')
  end.

(** ** humanPlayer *)

(** [input[i]] promoted to [int], [char] being a signed 8-bit type. *)
Definition char_to_int (c : ascii) : Z :=
  let n := char_code c in if n <? 128 then n else n - 256.

(** [input[i]] for a [std::string]: the character at [i], the terminating
    null character at [i == input.size()], undefined beyond. *)
Definition string_at (input : list ascii) (i : nat) : option ascii :=
  match nth_error input i with
  | Some c => Some c
  | None => if (i =? length input)%nat then Some zero else None
  end.

(** [playerGuess[i] = input[i] - '0'] *)
Definition guess_digit (input : list ascii) (i : nat) : option Z :=
  option_map (fun c => char_to_int c - 48) (string_at input i).

(** The conversion loop of [humanPlayer]; [None] when it reads past the
    end of [input]. *)
Definition playerGuess (input : list ascii) : option DigitCombination :=
  match guess_digit input 0, guess_digit input 1,
        guess_digit input 2, guess_digit input 3 with
  | Some a, Some b, Some c, Some d => Some (mkCombination a b c d)
  | _, _, _, _ => None
  end.

(** One round of the [do ... while] loop of [humanPlayer]: the score
    printed for the token read, and the stream behind it. *)
Definition humanPlayer_round (secretCode : DigitCombination) (s : istream)
  : option (DigitCombination * Score * istream) :=
  let (input, s') := read_token s [] in
  match playerGuess input with
  | Some guess => Some (guess, calculateScore guess secretCode, s')
  | None => None
  end.

(** The loop condition of [humanPlayer]. *)
Definition keep_guessing (score : Score) : bool := right_position score <? 4.

(** [humanPlayer] after [secretCode] has been selected: the scores printed,
    until the loop is left; [None] when [fuel] rounds do not leave it or a
    round is undefined. *)
Fixpoint humanPlayer (fuel : nat) (secretCode : DigitCombination)
    (s : istream) : option (list Score * istream) :=
  match fuel with
  | O => None
  | S fuel' =>
      match humanPlayer_round secretCode s with
      | None => None
      | Some (_, score, s') =>
          if keep_guessing score then
            match humanPlayer fuel' secretCode s' with
            | Some (scores, s'') => Some (score :: scores, s'')
            | None => None
            end
          else Some ([score], s')
      end
  end.

(** A guess as the prompt of [humanPlayer] asks for it. *)
Definition well_formed_guess (level : Z) (input : list ascii) : Prop :=
  exists g, length input = 4%nat /\ playerGuess input = Some g
            /\ valid_combination level g.

(** ** The scoring rule as the specification words it *)

(** The positions where [guess] and [code] agree. *)
Definition positional_matches (guess code : DigitCombination) : list nat :=
  filter (fun i => digit guess i =? digit code i) positions.

(** The guess digits outside the positional matches that occur in [code] at
    a position neither matched positionally nor already used for an earlier
    guess digit; [used] holds the code positions that are taken. *)
Fixpoint value_matches (guess code : DigitCombination) (ps : list nat)
    (used : list nat) : Z :=
  match ps with
  | [] => 0
  | i :: ps' =>
      if digit guess i =? digit code i then value_matches guess code ps' used
      else
        match find (fun j => negb (existsb (Nat.eqb j) used)
                             && (digit guess i =? digit code j)) positions with
        | Some j => 1 + value_matches guess code ps' (j :: used)
        | None => value_matches guess code ps' used
        end
  end.

Definition reference_score (guess code : DigitCombination) : Score :=
  let exact := positional_matches guess code in
  mkScore (Z.of_nat (length exact))
          (value_matches guess code positions exact).

(** ** performComputerMove *)

(** The loop printing the guess: [std::cout << digit] for each of its four
    digits, an [int] being printed in decimal. *)
Definition show_digit (d : Z) : string := NilZero.string_of_int (Z.to_int d).

Definition show_guess (guess : DigitCombination) : string :=
  (show_digit (d0 guess) ++ show_digit (d1 guess)
   ++ show_digit (d2 guess) ++ show_digit (d3 guess))%string.

(** One move of the computer.  [dis_gen] gives the index that [dis(gen)]
    produces when the selection is made on a given list; within one game no
    list is selected from twice, so a function of the list stands for any
    sequence of draws.  The result holds the value returned, the guess shown
    with the score as entered (a [Score] starts as (0, 0), and
    [wrong_position] is not read after a 4), the list after the move and
    the stream; [None] when the selection is undefined. *)
Definition performComputerMove (dis_gen : CombinationList -> N)
    (combinations : CombinationList) (s : istream)
  : option (bool * Observation * CombinationList * istream) :=
  match selectRandomCombination combinations (dis_gen combinations) with
  | None => None
  | Some guess =>
      let (right, s1) := read_int s (right_position Score_default) in
      if right =? 4
      then Some (true, (guess, mkScore right (wrong_position Score_default)),
                 combinations, s1)
      else
        let (wrong, s2) := read_int s1 (wrong_position Score_default) in
        let score := mkScore right wrong in
        Some (false, (guess, score),
              filterCombinations combinations guess score, s2)
  end.

(** ** computerPlayer *)

(** How [computerPlayer] ends: with the message that the combination has
    been guessed, or with [Input error detected, restarting game...]. *)
Inductive GameEnd : Type := CodeGuessed | InputError.

(** [combinations.empty()] *)
Definition empty (v : CombinationList) : bool :=
  match v with
  | [] => true
  | _ :: _ => false
  end.

(** The [do ... while (!codeGuessed)] loop, for at most [fuel] moves: how it
    ends, the guesses shown with the scores entered, the list and the stream
    it leaves. *)
Fixpoint computerPlayer (fuel : nat) (dis_gen : CombinationList -> N)
    (combinations : CombinationList) (s : istream)
  : option (GameEnd * list Observation * CombinationList * istream) :=
  match fuel with
  | O => None
  | S fuel' =>
      match performComputerMove dis_gen combinations s with
      | None => None
      | Some (codeGuessed, move, combinations', s') =>
          if empty combinations' && negb codeGuessed
          then Some (InputError, [move], combinations', s')
          else if negb codeGuessed then
            match computerPlayer fuel' dis_gen combinations' s' with
            | Some (ending, moves, v, s'') => Some (ending, move :: moves, v, s'')
            | None => None
            end
          else Some (CodeGuessed, [move], combinations', s')
      end
  end.

(** Every draw lies in the range of the distribution built for the list. *)
Definition draws_in_range (dis_gen : CombinationList -> N) : Prop :=
  forall v, v <> [] -> In (dis_gen v) (outcomes (selection_distribution v)).

(** The input holds, for every guess the computer shows, the score of that
    guess against [secret]: the positional matches and, unless these are 4,
    the other matches. *)
Fixpoint answered_truthfully (fuel : nat) (dis_gen : CombinationList -> N)
    (secret : DigitCombination) (combinations : CombinationList)
    (s : istream) : Prop :=
  match fuel with
  | O => True
  | S fuel' =>
      match selectRandomCombination combinations (dis_gen combinations) with
      | None => True
      | Some guess =>
          let score := calculateScore guess secret in
          fst (read_int s 0) = right_position score
          /\ (right_position score <> 4 ->
              fst (read_int (snd (read_int s 0)) 0) = wrong_position score
              /\ answered_truthfully fuel' dis_gen secret
                   (filterCombinations combinations guess score)
                   (snd (read_int (snd (read_int s 0)) 0)))
      end
  end.

(** ** Orders and counts used to describe the results *)

(** The order of four-digit sequences read from the left. *)
Definition lex_lt (a b : DigitCombination) : Prop :=
  d0 a < d0 b
  \/ (d0 a = d0 b
      /\ (d1 a < d1 b
          \/ (d1 a = d1 b
              /\ (d2 a < d2 b \/ (d2 a = d2 b /\ d3 a < d3 b))))).

(** The digit of [guess] at position [i] occurs somewhere in [code]. *)
Definition occurs_in (guess code : DigitCombination) (i : nat) : bool :=
  existsb (fun j => digit guess i =? digit code j) positions.

(** A candidate agrees with every observation. *)
Definition consistent (obs : list Observation) (c : DigitCombination) : Prop :=
  Forall (fun o => calculateScore (fst o) c = snd o) obs.

(** * Properties *)

(** ** Vectors as lists *)

Section VectorFacts.
Context {A : Type}.

Lemma skipn_at (v : list A) (it : nat) (c : A) :
  nth_error v it = Some c -> skipn it v = c :: skipn (S it) v.
Proof.
  revert it; induction v as [|x v IH]; intros [|it] H; simpl in *;
    try discriminate.
  - congruence.
  - now apply IH.
Qed.

Lemma firstn_at (v : list A) (it : nat) (c : A) :
  nth_error v it = Some c -> firstn (S it) v = firstn it v ++ [c].
Proof.
  revert it; induction v as [|x v IH]; intros [|it] H; simpl in *;
    try discriminate.
  - congruence.
  - f_equal. now apply IH.
Qed.

Lemma skipn_past (v : list A) (it : nat) :
  nth_error v it = None -> skipn it v = [] /\ firstn it v = v.
Proof.
  intros H. apply nth_error_None in H. split.
  - now apply skipn_all2.
  - now apply firstn_all2.
Qed.
End VectorFacts.

Lemma firstn_erase (v : CombinationList) (it : nat) (c : DigitCombination) :
  nth_error v it = Some c -> firstn it (erase v it) = firstn it v.
Proof.
  intros H.
  assert (Hlt : (it < length v)%nat) by (apply nth_error_Some; congruence).
  unfold erase. rewrite firstn_app, length_firstn.
  replace (it - Nat.min it (length v))%nat with 0%nat by lia.
  rewrite firstn_firstn, Nat.min_id. simpl. now rewrite app_nil_r.
Qed.

Lemma skipn_erase (v : CombinationList) (it : nat) (c : DigitCombination) :
  nth_error v it = Some c -> skipn it (erase v it) = skipn (S it) v.
Proof.
  intros H.
  assert (Hlt : (it < length v)%nat) by (apply nth_error_Some; congruence).
  unfold erase. rewrite skipn_app, length_firstn.
  replace (it - Nat.min it (length v))%nat with 0%nat by lia.
  rewrite skipn_all2 by (rewrite length_firstn; lia). reflexivity.
Qed.

(** ** Equality of scores *)

Lemma Score_eqb_eq (a b : Score) : Score_eqb a b = true <-> a = b.
Proof.
  destruct a as [ra wa], b as [rb wb]. unfold Score_eqb. simpl.
  rewrite andb_true_iff, !Z.eqb_eq. split.
  - intros [-> ->]. reflexivity.
  - intros H. injection H. auto.
Qed.

Lemma same_score_iff (guess : DigitCombination) (score : Score)
    (c : DigitCombination) :
  same_score guess score c = true <-> calculateScore guess c = score.
Proof. apply Score_eqb_eq. Qed.

(** ** The filtering loop *)

(** The loop invariant: the elements before the iterator are untouched, the
    elements from the iterator on are filtered. *)
Lemma filter_loop_spec (guess : DigitCombination) (score : Score)
    (v : CombinationList) (it : nat) :
  filter_loop guess score v it
  = firstn it v ++ filter (same_score guess score) (skipn it v).
Proof.
  funelim (filter_loop guess score v it).
  - destruct (skipn_past _ _ e) as [-> ->]. simpl. now rewrite app_nil_r.
  - rewrite H. rewrite (firstn_at _ _ _ Hit), (skipn_at _ _ _ Hit).
    simpl. unfold same_score at 2. rewrite Heq.
    now rewrite <- app_assoc.
  - rewrite H. rewrite (firstn_erase _ _ _ Hit), (skipn_erase _ _ _ Hit).
    rewrite (skipn_at _ _ _ Hit). simpl. unfold same_score at 2.
    now rewrite Heq.
Qed.

Lemma filterCombinations_filter (v : CombinationList)
    (guess : DigitCombination) (score : Score) :
  filterCombinations v guess score = filter (same_score guess score) v.
Proof. unfold filterCombinations. now rewrite filter_loop_spec. Qed.

Lemma filterCombinations_In (v : CombinationList)
    (guess : DigitCombination) (score : Score) (c : DigitCombination) :
  In c (filterCombinations v guess score)
  <-> In c v /\ calculateScore guess c = score.
Proof.
  rewrite filterCombinations_filter, filter_In, same_score_iff. tauto.
Qed.

(** C2: [filterCombinations] leaves exactly the candidates whose score
    against the guess equals the observed score, in their original order:
    the list after the call is the original list filtered by that test, a
    candidate is in it exactly when it was in the list and its score
    matches, and a candidate whose score differs is not in it. *)
Theorem filterCombinations_keeps_matching (allCombinations : CombinationList)
    (guess : DigitCombination) (score : Score) :
  filterCombinations allCombinations guess score
  = filter (fun c => Score_eqb (calculateScore guess c) score) allCombinations
  /\ (forall c, In c (filterCombinations allCombinations guess score)
                <-> In c allCombinations /\ calculateScore guess c = score)
  /\ (forall c, calculateScore guess c <> score ->
                ~ In c (filterCombinations allCombinations guess score)).
Proof.
  split; [apply filterCombinations_filter|].
  split; [apply filterCombinations_In|].
  intros c Hc Hin. apply filterCombinations_In in Hin. tauto.
Qed.

(** C5: the candidate list after [filterCombinations] is no longer than the
    list before the call. *)
Theorem filterCombinations_length_le (allCombinations : CombinationList)
    (guess : DigitCombination) (score : Score) :
  (length (filterCombinations allCombinations guess score)
   <= length allCombinations)%nat.
Proof. rewrite filterCombinations_filter. apply filter_length_le. Qed.

(** ** The secret survives truthful feedback *)

Lemma apply_observations_keeps (secret : DigitCombination)
    (obs : list Observation) :
  truthful secret obs ->
  forall combinations,
    In secret combinations -> In secret (apply_observations obs combinations).
Proof.
  induction 1 as [|[guess score] obs Hscore _ IH]; intros v Hin; simpl.
  - exact Hin.
  - apply IH. apply filterCombinations_In. split; [exact Hin|].
    simpl in Hscore. now symmetry.
Qed.

Lemma truthful_firstn (secret : DigitCombination) (obs : list Observation)
    (n : nat) :
  truthful secret obs -> truthful secret (firstn n obs).
Proof.
  unfold truthful. intros H. revert n.
  induction H as [|o obs Ho _ IH]; intros [|n]; simpl; auto.
Qed.

(** C1: when the candidate list contains the secret and every observed score
    is [calculateScore] of its guess and the secret, the list still contains
    the secret after each of the calls of [filterCombinations], that is
    after the first [n] of them for every [n]. *)
Theorem secret_survives_filtering (secret : DigitCombination)
    (combinations : CombinationList) (obs : list Observation) :
  In secret combinations ->
  truthful secret obs ->
  forall n, In secret (apply_observations (firstn n obs) combinations).
Proof.
  intros Hin Hobs n.
  apply apply_observations_keeps; [now apply truthful_firstn | exact Hin].
Qed.

Lemma secret_survives_filtering_witness :
  let secret := mkCombination 3 1 0 2 in
  let obs := [(mkCombination 0 1 2 3, mkScore 1 3);
              (mkCombination 3 1 2 0, mkScore 2 2)] in
  In secret (apply_observations (firstn 2 obs) (generateAllCombinations 4)).
Proof.
  apply (secret_survives_filtering (mkCombination 3 1 0 2)
           (generateAllCombinations 4)
           [(mkCombination 0 1 2 3, mkScore 1 3);
            (mkCombination 3 1 2 0, mkScore 2 2)]).
  - vm_compute. intuition.
  - repeat constructor.
Defined.

(** ** The scoring loop *)

(** The inner loop adds at most one to [wrong_position] and leaves
    [right_position] alone. *)
Lemma search_code_effect (g : Z) (code : DigitCombination) (js : list nat)
    (score : Score) :
  right_position (search_code g code js score) = right_position score
  /\ (wrong_position (search_code g code js score) = wrong_position score
      \/ wrong_position (search_code g code js score)
         = wrong_position score + 1).
Proof.
  induction js as [|j js IH]; simpl.
  - auto.
  - destruct (g =? digit code j); simpl; auto.
Qed.

(** An iteration of the outer loop adds one to exactly one counter or to
    none; it adds to [right_position] exactly at a positional match. *)
Lemma score_position_effect (guess code : DigitCombination) (i : nat)
    (score : Score) :
  let score' := score_position guess code i score in
  (digit guess i = digit code i
   /\ right_position score' = right_position score + 1
   /\ wrong_position score' = wrong_position score)
  \/ (digit guess i <> digit code i
      /\ right_position score' = right_position score
      /\ (wrong_position score' = wrong_position score
          \/ wrong_position score' = wrong_position score + 1)).
Proof.
  cbv zeta. unfold score_position.
  destruct (Z.eqb_spec (digit guess i) (digit code i)) as [E|E].
  - left. simpl. auto.
  - right. split; [exact E|].
    exact (search_code_effect (digit guess i) code positions score).
Qed.

Lemma score_loop_bounds (guess code : DigitCombination) (ps : list nat)
    (score : Score) :
  let score' := score_loop guess code ps score in
  right_position score <= right_position score'
  /\ wrong_position score <= wrong_position score'
  /\ right_position score' + wrong_position score'
     <= right_position score + wrong_position score + Z.of_nat (length ps).
Proof.
  revert score. induction ps as [|i ps IH]; intros score; simpl.
  - lia.
  - specialize (IH (score_position guess code i score)). simpl in IH.
    pose proof (score_position_effect guess code i score) as H.
    simpl in H. lia.
Qed.

(** [right_position] counts the positional matches. *)
Lemma score_loop_right (guess code : DigitCombination) (ps : list nat)
    (score : Score) :
  right_position (score_loop guess code ps score)
  = right_position score
    + Z.of_nat (length (filter (fun i => digit guess i =? digit code i) ps)).
Proof.
  revert score. induction ps as [|i ps IH]; intros score; simpl.
  - lia.
  - rewrite IH.
    pose proof (score_position_effect guess code i score) as H.
    simpl in H.
    destruct (Z.eqb_spec (digit guess i) (digit code i)); simpl length; lia.
Qed.

Lemma right_position_matches (guess code : DigitCombination) :
  right_position (calculateScore guess code)
  = Z.of_nat (length (positional_matches guess code)).
Proof. unfold calculateScore. now rewrite score_loop_right. Qed.

Lemma right_position_four (guess code : DigitCombination) :
  right_position (calculateScore guess code) = 4 <-> guess = code.
Proof.
  rewrite right_position_matches. unfold positional_matches, positions.
  destruct guess as [g0 g1 g2 g3], code as [c0 c1 c2 c3]. simpl.
  destruct (Z.eqb_spec g0 c0), (Z.eqb_spec g1 c1),
    (Z.eqb_spec g2 c2), (Z.eqb_spec g3 c3); simpl;
    (split; [intros H; try discriminate H; congruence
            | intros H; injection H; intros; try reflexivity; contradiction]).
Qed.

Lemma score_bounds (guess code : DigitCombination) :
  0 <= right_position (calculateScore guess code)
  /\ 0 <= wrong_position (calculateScore guess code)
  /\ right_position (calculateScore guess code)
     + wrong_position (calculateScore guess code) <= 4.
Proof.
  pose proof (score_loop_bounds guess code positions Score_default) as B.
  cbv zeta in B. change (score_loop guess code positions Score_default)
    with (calculateScore guess code) in B.
  simpl in B. lia.
Qed.

(** C4: scoring a code against itself gives four positional matches and no
    other match. *)
Theorem calculateScore_same (code : DigitCombination) :
  calculateScore code code = mkScore 4 0.
Proof.
  destruct code as [c0 c1 c2 c3].
  unfold calculateScore, positions, score_loop, score_position. simpl.
  now rewrite !Z.eqb_refl.
Qed.

(** C9: [right_position] of [calculateScore guess code] is 4 exactly when
    the guess equals the code; so the loop of [humanPlayer], which goes on
    while [right_position < 4], is left exactly on a guess equal to the
    secret, and the test [right_position == 4] of the computer's move holds
    for a truthful score exactly on such a guess. *)
Theorem win_iff_guess_is_code (guess code : DigitCombination) :
  (right_position (calculateScore guess code) = 4 <-> guess = code)
  /\ (keep_guessing (calculateScore guess code) = false <-> guess = code)
  /\ ((right_position (calculateScore guess code) =? 4) = true
      <-> guess = code).
Proof.
  pose proof (right_position_four guess code) as H.
  pose proof (score_bounds guess code) as B.
  unfold keep_guessing. rewrite Z.ltb_ge, Z.eqb_eq.
  split; [exact H|]. split; [|exact H].
  split; intros E; [apply H; lia | apply H in E; lia].
Qed.

(** C10: both counters of a score are non-negative and their sum is at
    most 4. *)
Theorem calculateScore_bounds (guess code : DigitCombination) :
  0 <= right_position (calculateScore guess code)
  /\ 0 <= wrong_position (calculateScore guess code)
  /\ right_position (calculateScore guess code)
     + wrong_position (calculateScore guess code) <= 4.
Proof. apply score_bounds. Qed.

(** ** Agreement with the scoring rule of the specification *)

(** Decides the next comparison of two digits in the goal. *)
Ltac decide_digits :=
  match goal with
  | |- context [?a =? ?a] => rewrite (Z.eqb_refl a)
  | H : ?a <> ?b |- context [?a =? ?b] =>
      rewrite (proj2 (Z.eqb_neq a b) H)
  | H : ?b <> ?a |- context [?a =? ?b] =>
      rewrite (proj2 (Z.eqb_neq a b) (not_eq_sym H))
  | |- context [?a =? ?b] =>
      destruct (Z.eqb_spec a b); [subst; try contradiction|]
  end.

(** Distinct guess digits are enough for the two scores to agree: every
    comparison of a guess digit with a code digit is decided in turn. *)
Lemma calculateScore_reference_guess_distinct (guess code : DigitCombination) :
  digits_distinct guess ->
  calculateScore guess code = reference_score guess code.
Proof.
  destruct guess as [g0 g1 g2 g3], code as [c0 c1 c2 c3].
  unfold digits_distinct. simpl.
  intros (G01 & G02 & G03 & G12 & G13 & G23).
  unfold calculateScore, reference_score, positional_matches, positions,
    score_loop, score_position, search_code, value_matches, digit,
    Score_default, incr_right, incr_wrong.
  cbn [d0 d1 d2 d3 filter find].
  repeat (decide_digits; cbn -[Z.add Z.eqb Z.of_nat]); reflexivity.
Qed.

(** C3: on a guess and a code whose digits are pairwise distinct,
    [calculateScore] is the reference score of the specification: the
    positional matches first, then the guess digits found in the code at a
    position that is neither a positional match nor already used. *)
Theorem calculateScore_reference (guess code : DigitCombination) :
  digits_distinct guess ->
  digits_distinct code ->
  calculateScore guess code = reference_score guess code.
Proof.
  intros Hg _. now apply calculateScore_reference_guess_distinct.
Qed.

Lemma calculateScore_reference_witness :
  calculateScore (mkCombination 1 2 3 4) (mkCombination 2 1 3 5)
  = reference_score (mkCombination 1 2 3 4) (mkCombination 2 1 3 5).
Proof.
  apply (calculateScore_reference (mkCombination 1 2 3 4)
           (mkCombination 2 1 3 5));
    unfold digits_distinct; simpl; repeat split; lia.
Defined.

(** ** The generator as nested comprehensions *)

Section Loops.
Context {A B : Type}.

(** A loop whose body only appends to the vector appends the
    concatenation of what its iterations append. *)
Lemma fold_left_appending (body : B -> list A -> list A)
    (f : B -> list A) (l : list B) :
  (forall i acc, body i acc = acc ++ f i) ->
  forall acc,
    fold_left (fun acc i => body i acc) l acc = acc ++ flat_map f l.
Proof.
  intros Hbody. induction l as [|i l IH]; intros acc; simpl.
  - now rewrite app_nil_r.
  - now rewrite IH, Hbody, <- app_assoc.
Qed.

Lemma flat_map_length_uniform (f : B -> list A) (p : B -> bool) (m : nat)
    (l : list B) :
  (forall x, In x l -> length (f x) = if p x then m else 0%nat) ->
  length (flat_map f l) = (m * length (filter p l))%nat.
Proof.
  induction l as [|x l IH]; intros H; simpl.
  - lia.
  - rewrite length_app, IH by (intros; apply H; now right).
    rewrite (H x) by now left.
    destruct (p x); simpl; lia.
Qed.

Lemma NoDup_flat_map (key : A -> B) (f : B -> list A) (l : list B) :
  NoDup l ->
  (forall x, In x l -> NoDup (f x)) ->
  (forall x a, In a (f x) -> key a = x) ->
  NoDup (flat_map f l).
Proof.
  intros Hl Hf Hkey. induction Hl as [|x l Hx Hl IH]; simpl.
  - constructor.
  - apply NoDup_app.
    + apply Hf. now left.
    + apply IH. intros; apply Hf; now right.
    + intros a Ha Hin. apply in_flat_map in Hin as (y & Hy & Hay).
      apply Hkey in Ha, Hay. congruence.
Qed.
End Loops.

Lemma for_loop_appending {A : Type} (level : Z)
    (body : Z -> list A -> list A) (f : Z -> list A) (acc : list A) :
  (forall i acc, body i acc = acc ++ f i) ->
  for_loop level body acc = acc ++ flat_map f (counter_values level).
Proof. intros H. unfold for_loop. now apply fold_left_appending. Qed.

Lemma generateAllCombinations_flat_map (level : Z) :
  generateAllCombinations level
  = flat_map (combinations_i level) (counter_values level).
Proof.
  unfold generateAllCombinations.
  rewrite (for_loop_appending level _ (combinations_i level)); [reflexivity|].
  intros i acc.
  rewrite (for_loop_appending level _ (combinations_ij level i));
    [reflexivity|].
  intros j acc'.
  rewrite (for_loop_appending level _ (combinations_ijk level i j));
    [reflexivity|].
  intros k acc''.
  apply for_loop_appending.
  intros l v. unfold push_back.
  destruct (all_different i j k l); [reflexivity | now rewrite app_nil_r].
Qed.

(** ** Membership in the generated list *)

Lemma counter_values_In (level x : Z) :
  In x (counter_values level) <-> 0 <= x < level.
Proof.
  unfold counter_values. rewrite in_map_iff. split.
  - intros (n & <- & Hn). apply in_seq in Hn. lia.
  - intros H. exists (Z.to_nat x). split; [lia|]. apply in_seq. lia.
Qed.

Lemma counter_values_NoDup (level : Z) : NoDup (counter_values level).
Proof.
  unfold counter_values. apply Finite.Injective_map_NoDup.
  - intros a b. apply Nat2Z.inj.
  - apply seq_NoDup.
Qed.

Lemma counter_values_length (level : Z) :
  length (counter_values level) = Z.to_nat level.
Proof. unfold counter_values. now rewrite length_map, length_seq. Qed.

Lemma all_different_iff (i j k l : Z) :
  all_different i j k l = true
  <-> i <> j /\ i <> k /\ i <> l /\ j <> k /\ j <> l /\ k <> l.
Proof.
  unfold all_different.
  rewrite !andb_true_iff, !negb_true_iff, !Z.eqb_neq. tauto.
Qed.

Lemma combinations_ijk_In (level i j k : Z) (c : DigitCombination) :
  In c (combinations_ijk level i j k)
  <-> d0 c = i /\ d1 c = j /\ d2 c = k /\ 0 <= d3 c < level
      /\ all_different i j k (d3 c) = true.
Proof.
  unfold combinations_ijk. rewrite in_flat_map. split.
  - intros (l & Hl & Hc). apply counter_values_In in Hl.
    destruct (all_different i j k l) eqn:E; simpl in Hc; [|contradiction].
    destruct Hc as [<-|[]]. simpl. auto.
  - intros (<- & <- & <- & Hl & E). exists (d3 c).
    split; [now apply counter_values_In|].
    rewrite E. left. now destruct c.
Qed.

Lemma combinations_ij_In (level i j : Z) (c : DigitCombination) :
  In c (combinations_ij level i j)
  <-> d0 c = i /\ d1 c = j /\ 0 <= d2 c < level /\ 0 <= d3 c < level
      /\ all_different i j (d2 c) (d3 c) = true.
Proof.
  unfold combinations_ij. rewrite in_flat_map. split.
  - intros (k & Hk & Hc). apply counter_values_In in Hk.
    apply combinations_ijk_In in Hc as (? & ? & <- & ? & ?). auto.
  - intros (? & ? & Hk & ? & ?). exists (d2 c).
    split; [now apply counter_values_In|].
    apply combinations_ijk_In. auto.
Qed.

Lemma combinations_i_In (level i : Z) (c : DigitCombination) :
  In c (combinations_i level i)
  <-> d0 c = i /\ 0 <= d1 c < level /\ 0 <= d2 c < level
      /\ 0 <= d3 c < level /\ all_different i (d1 c) (d2 c) (d3 c) = true.
Proof.
  unfold combinations_i. rewrite in_flat_map. split.
  - intros (j & Hj & Hc). apply counter_values_In in Hj.
    apply combinations_ij_In in Hc as (? & <- & ? & ? & ?). auto.
  - intros (? & Hj & ? & ? & ?). exists (d1 c).
    split; [now apply counter_values_In|].
    apply combinations_ij_In. auto.
Qed.

Lemma generateAllCombinations_In (level : Z) (c : DigitCombination) :
  In c (generateAllCombinations level) <-> valid_combination level c.
Proof.
  rewrite generateAllCombinations_flat_map, in_flat_map.
  unfold valid_combination, digits_in_range, digits_distinct. split.
  - intros (i & Hi & Hc). apply counter_values_In in Hi.
    apply combinations_i_In in Hc as (<- & ? & ? & ? & E).
    apply all_different_iff in E. tauto.
  - intros ((Hi & ? & ? & ?) & E). exists (d0 c).
    split; [now apply counter_values_In|].
    apply combinations_i_In. rewrite all_different_iff. tauto.
Qed.

(** ** No combination is generated twice *)

Lemma combinations_ijk_NoDup (level i j k : Z) :
  NoDup (combinations_ijk level i j k).
Proof.
  unfold combinations_ijk.
  apply (NoDup_flat_map d3); [apply counter_values_NoDup | |].
  - intros l _. destruct (all_different i j k l); repeat constructor.
    intros [].
  - intros l a. destruct (all_different i j k l); simpl; [|tauto].
    intros [<-|[]]. reflexivity.
Qed.

Lemma combinations_ij_NoDup (level i j : Z) :
  NoDup (combinations_ij level i j).
Proof.
  unfold combinations_ij.
  apply (NoDup_flat_map d2); [apply counter_values_NoDup | |].
  - intros k _. apply combinations_ijk_NoDup.
  - intros k a Ha. now apply combinations_ijk_In in Ha.
Qed.

Lemma combinations_i_NoDup (level i : Z) : NoDup (combinations_i level i).
Proof.
  unfold combinations_i.
  apply (NoDup_flat_map d1); [apply counter_values_NoDup | |].
  - intros j _. apply combinations_ij_NoDup.
  - intros j a Ha. now apply combinations_ij_In in Ha.
Qed.

Lemma generateAllCombinations_NoDup (level : Z) :
  NoDup (generateAllCombinations level).
Proof.
  rewrite generateAllCombinations_flat_map.
  apply (NoDup_flat_map d0); [apply counter_values_NoDup | |].
  - intros i _. apply combinations_i_NoDup.
  - intros i a Ha. now apply combinations_i_In in Ha.
Qed.

(** ** Counting the generated combinations *)

Section Filters.
Context {A : Type}.

Lemma filter_andb (f g : A -> bool) (l : list A) :
  filter (fun x => f x && g x) l = filter f (filter g l).
Proof.
  induction l as [|x l IH]; simpl; [reflexivity|].
  destruct (g x); simpl; rewrite ?andb_false_r, ?andb_true_r.
  - destruct (f x); now rewrite IH.
  - exact IH.
Qed.

Lemma filter_none (f : A -> bool) (l : list A) :
  (forall x, In x l -> f x = false) -> filter f l = [].
Proof.
  induction l as [|x l IH]; intros H; simpl; [reflexivity|].
  rewrite (H x) by now left. apply IH. intros; apply H; now right.
Qed.

Lemma filter_every (f : A -> bool) (l : list A) :
  (forall x, In x l -> f x = true) -> filter f l = l.
Proof.
  induction l as [|x l IH]; intros H; simpl; [reflexivity|].
  rewrite (H x) by now left. f_equal. apply IH. intros; apply H; now right.
Qed.
End Filters.

Lemma count_without (a : Z) (l : list Z) :
  NoDup l -> In a l ->
  (length (filter (fun x => negb (x =? a)%Z) l) + 1 = length l)%nat.
Proof.
  induction 1 as [|x l Hx Hl IH]; intros Ha; simpl.
  - contradiction.
  - destruct (Z.eqb_spec x a) as [->|Hne]; simpl.
    + rewrite filter_every; [lia|].
      intros y Hy. apply negb_true_iff, Z.eqb_neq. congruence.
    + destruct Ha as [Ha|Ha]; [contradiction|]. rewrite <- IH by exact Ha. lia.
Qed.

Lemma avoids_cons (a : Z) (xs : list Z) (x : Z) :
  avoids (a :: xs) x = negb (x =? a) && avoids xs x.
Proof. unfold avoids. simpl. now rewrite negb_orb. Qed.

Lemma avoids_iff (xs : list Z) (x : Z) :
  avoids xs x = true <-> ~ In x xs.
Proof.
  unfold avoids. rewrite negb_true_iff, <- not_true_iff_false, existsb_exists.
  split; intros H Hin.
  - apply H. exists x. split; [exact Hin | apply Z.eqb_refl].
  - destruct Hin as (y & Hy & E). apply Z.eqb_eq in E. now subst.
Qed.

(** Among distinct values, those avoiding [xs] are all but [length xs]. *)
Lemma count_avoiding (xs l : list Z) :
  NoDup l -> NoDup xs -> incl xs l ->
  (length (filter (avoids xs) l) + length xs = length l)%nat.
Proof.
  intros Hl Hxs. induction Hxs as [|a xs Ha Hxs IH]; intros Hincl.
  - rewrite filter_every by reflexivity. simpl. lia.
  - rewrite (filter_ext _ _ (avoids_cons a xs)), filter_andb.
    assert (Hin : In a (filter (avoids xs) l)).
    { apply filter_In. split; [apply Hincl; now left | now apply avoids_iff]. }
    pose proof (count_without a _ (NoDup_filter _ Hl) Hin) as H1.
    assert (H2 : incl xs l) by (intros y Hy; apply Hincl; now right).
    specialize (IH H2). simpl. lia.
Qed.

Section Counting.
Variable level : Z.

Let values := counter_values level.
Let n := length values.

Lemma all_different_split (i j k l : Z) :
  all_different i j k l
  = (differ i j && avoids [i; j] k) && avoids [i; j; k] l.
Proof.
  unfold all_different, differ, avoids. simpl.
  rewrite (Z.eqb_sym k i), (Z.eqb_sym k j), (Z.eqb_sym l i),
    (Z.eqb_sym l j), (Z.eqb_sym l k).
  destruct (i =? j), (i =? k), (i =? l), (j =? k), (j =? l), (k =? l);
    reflexivity.
Qed.

Lemma combinations_ijk_length (i j k : Z) :
  In i values -> In j values -> In k values ->
  length (combinations_ijk level i j k)
  = if differ i j && avoids [i; j] k then (n - 3)%nat else 0%nat.
Proof.
  intros Hi Hj Hk. unfold combinations_ijk. fold values.
  rewrite (flat_map_length_uniform _ (all_different i j k) 1);
    [|intros l _; now destruct (all_different i j k l)].
  rewrite (filter_ext _ _ (all_different_split i j k)).
  destruct (differ i j && avoids [i; j] k) eqn:E; simpl.
  - assert (Hnd : NoDup [i; j; k]).
    { apply andb_true_iff in E as [E1 E2].
      apply negb_true_iff, Z.eqb_neq in E1. apply avoids_iff in E2.
      simpl in E2. repeat constructor; simpl; intuition congruence. }
    assert (Hincl : incl [i; j; k] values).
    { intros y [<-|[<-|[<-|[]]]]; assumption. }
    pose proof (count_avoiding [i; j; k] values
                  (counter_values_NoDup level) Hnd Hincl) as H.
    simpl in H. fold n in H.
    change (fun l : Z => avoids [i; j; k] l) with (avoids [i; j; k]). lia.
  - now rewrite filter_none.
Qed.

Lemma combinations_ij_length (i j : Z) :
  In i values -> In j values ->
  length (combinations_ij level i j)
  = if differ i j then ((n - 3) * (n - 2))%nat else 0%nat.
Proof.
  intros Hi Hj. unfold combinations_ij. fold values.
  rewrite (flat_map_length_uniform _
             (fun k => differ i j && avoids [i; j] k) (n - 3));
    [|intros k Hk; now apply combinations_ijk_length].
  rewrite filter_andb.
  destruct (differ i j) eqn:E.
  - rewrite (filter_every (fun _ => true)) by reflexivity.
    assert (Hnd : NoDup [i; j]).
    { apply negb_true_iff, Z.eqb_neq in E.
      repeat constructor; simpl; intuition congruence. }
    assert (Hincl : incl [i; j] values).
    { intros y [<-|[<-|[]]]; assumption. }
    pose proof (count_avoiding [i; j] values
                  (counter_values_NoDup level) Hnd Hincl) as H.
    simpl in H. fold n in H.
    replace (length (filter (avoids [i; j]) values)) with (n - 2)%nat by lia.
    reflexivity.
  - rewrite (filter_none (fun _ => false)) by reflexivity. simpl. lia.
Qed.

Lemma combinations_i_length (i : Z) :
  In i values ->
  length (combinations_i level i) = ((n - 3) * (n - 2) * (n - 1))%nat.
Proof.
  intros Hi. unfold combinations_i. fold values.
  rewrite (flat_map_length_uniform _ (differ i) ((n - 3) * (n - 2)));
    [|intros j Hj; now apply combinations_ij_length].
  assert (E : forall j, differ i j = avoids [i] j).
  { intros j. unfold differ, avoids. simpl.
    now rewrite orb_false_r, Z.eqb_sym. }
  rewrite (filter_ext _ _ E).
  assert (Hnd : NoDup [i]) by (repeat constructor; simpl; tauto).
  assert (Hincl : incl [i] values) by (intros y [<-|[]]; assumption).
  pose proof (count_avoiding [i] values
                (counter_values_NoDup level) Hnd Hincl) as H.
  simpl in H. fold n in H.
  replace (length (filter (avoids [i]) values)) with (n - 1)%nat by lia.
  reflexivity.
Qed.

Lemma generateAllCombinations_length_nat :
  length (generateAllCombinations level)
  = ((n - 3) * (n - 2) * (n - 1) * n)%nat.
Proof.
  rewrite generateAllCombinations_flat_map. fold values.
  rewrite (flat_map_length_uniform _ (fun _ => true)
             ((n - 3) * (n - 2) * (n - 1)));
    [|intros i Hi; now apply combinations_i_length].
  now rewrite filter_every.
Qed.
End Counting.

Lemma generateAllCombinations_length (level : Z) :
  0 <= level ->
  Z.of_nat (length (generateAllCombinations level))
  = level * (level - 1) * (level - 2) * (level - 3).
Proof.
  intros H. rewrite generateAllCombinations_length_nat, counter_values_length.
  destruct (Z.le_gt_cases 3 level) as [H3|H3].
  - rewrite !Nat2Z.inj_mul, !Nat2Z.inj_sub, Z2Nat.id by lia. simpl. ring.
  - assert (E : level = 0 \/ level = 1 \/ level = 2) by lia.
    destruct E as [-> | [-> | ->]]; reflexivity.
Qed.

Lemma generateAllCombinations_nonpositive (level : Z) :
  level <= 0 -> generateAllCombinations level = [].
Proof.
  intros H. rewrite generateAllCombinations_flat_map.
  unfold counter_values. replace (Z.to_nat level) with 0%nat by lia.
  reflexivity.
Qed.

(** C6, with the length restricted to the levels it holds for: for every
    [level] the generated list holds exactly the combinations of four
    pairwise distinct digits in [0, level-1], each once; for every
    [level >= 0] its length is [level*(level-1)*(level-2)*(level-3)], for
    every [level] from 4 to 10 that is at most 5040, and for every
    [level <= 0] the list is empty. *)
Theorem generateAllCombinations_exact (level : Z) :
  (forall c, In c (generateAllCombinations level)
             <-> valid_combination level c)
  /\ NoDup (generateAllCombinations level)
  /\ (0 <= level ->
      Z.of_nat (length (generateAllCombinations level))
      = level * (level - 1) * (level - 2) * (level - 3))
  /\ (4 <= level <= 10 ->
      Z.of_nat (length (generateAllCombinations level)) <= 5040)
  /\ (level <= 0 -> generateAllCombinations level = []).
Proof.
  split; [intros c; apply generateAllCombinations_In|].
  split; [apply generateAllCombinations_NoDup|].
  split; [apply generateAllCombinations_length|].
  split; [|apply generateAllCombinations_nonpositive].
  intros H. rewrite generateAllCombinations_length by lia.
  assert (E : level = 4 \/ level = 5 \/ level = 6 \/ level = 7
              \/ level = 8 \/ level = 9 \/ level = 10) by lia.
  destruct E as [-> | [-> | [-> | [-> | [-> | [-> | ->]]]]]]; simpl; lia.
Qed.

Lemma generateAllCombinations_exact_witness :
  Z.of_nat (length (generateAllCombinations 4)) = 4 * (4 - 1) * (4 - 2) * (4 - 3)
  /\ Z.of_nat (length (generateAllCombinations 4)) <= 5040.
Proof.
  destruct (generateAllCombinations_exact 4) as (_ & _ & Hlen & Hbound & _).
  split; [apply Hlen | apply Hbound]; lia.
Defined.

(** C6 as stated fails below zero: at level -1 no loop body runs and the
    list is empty, while the product is 24. *)
Lemma generateAllCombinations_length_negative_level :
  generateAllCombinations (-1) = []
  /\ Z.of_nat (length (generateAllCombinations (-1)))
     <> (-1) * (-1 - 1) * (-1 - 2) * (-1 - 3).
Proof. split; [reflexivity | vm_compute; discriminate]. Qed.

(** ** Random selection *)

Lemma DigitCombination_eqb_eq (a b : DigitCombination) :
  DigitCombination_eqb a b = true <-> a = b.
Proof.
  destruct a, b. unfold DigitCombination_eqb. simpl.
  rewrite !andb_true_iff, !Z.eqb_eq. split.
  - intros (((-> & ->) & ->) & ->). reflexivity.
  - intros H. injection H. auto.
Qed.

Lemma nth_error_all {A : Type} (v : list A) :
  map (nth_error v) (seq 0 (length v)) = map Some v.
Proof.
  induction v as [|x v IH]; simpl; [reflexivity|].
  f_equal. rewrite <- seq_shift, map_map. exact IH.
Qed.

Lemma selection_outcomes (v : CombinationList) :
  v <> [] -> (vector_size v < size_modulus)%N ->
  outcomes (selection_distribution v) = map N.of_nat (seq 0 (length v)).
Proof.
  intros Hne Hsize. unfold outcomes, selection_distribution, size_sub. simpl.
  assert (Hpos : (0 < vector_size v)%N).
  { unfold vector_size. destruct v; [contradiction | simpl; lia]. }
  replace ((vector_size v + size_modulus - 1) mod size_modulus)%N
    with (vector_size v - 1)%N.
  - rewrite N.sub_0_r.
    replace (N.to_nat (vector_size v - 1 + 1)) with (length v)
      by (unfold vector_size in *; lia).
    reflexivity.
  - replace (vector_size v + size_modulus - 1)%N
      with ((vector_size v - 1) + 1 * size_modulus)%N by lia.
    rewrite N.Div0.mod_add. symmetry. apply N.mod_small. lia.
Qed.

Lemma selection_results (v : CombinationList) :
  v <> [] -> (vector_size v < size_modulus)%N ->
  map (selectRandomCombination v) (outcomes (selection_distribution v))
  = map Some v.
Proof.
  intros Hne Hsize. rewrite selection_outcomes by assumption.
  rewrite map_map. unfold selectRandomCombination.
  rewrite <- nth_error_all. apply map_ext. intros n.
  now rewrite Nat2N.id.
Qed.

Lemma filter_map_length {A B : Type} (f : A -> B) (p : B -> bool)
    (l : list A) :
  length (filter (fun x => p (f x)) l) = length (filter p (map f l)).
Proof.
  induction l as [|x l IH]; simpl; [reflexivity|].
  destruct (p (f x)); simpl; now rewrite IH.
Qed.

Lemma occurs_once (c : DigitCombination) (v : CombinationList) :
  NoDup v -> In c v ->
  length (filter (fun c' => DigitCombination_eqb c' c) v) = 1%nat.
Proof.
  induction 1 as [|x v Hx Hv IH]; intros Hin; simpl.
  - contradiction.
  - destruct (DigitCombination_eqb x c) eqn:E.
    + apply DigitCombination_eqb_eq in E. subst x. simpl.
      rewrite filter_none; [reflexivity|].
      intros y Hy. apply not_true_iff_false. intros Ey.
      apply DigitCombination_eqb_eq in Ey. congruence.
    + destruct Hin as [->|Hin]; [|now apply IH].
      assert (DigitCombination_eqb c c = true)
        by now apply DigitCombination_eqb_eq.
      congruence.
Qed.

(** C8: on a non-empty candidate list, every index the distribution can
    produce is within bounds and selects an element of the list; the equally
    likely indices select the candidates one for one, in order, so that each
    candidate of a duplicate-free list is returned with probability
    [1/size]. *)
Theorem selectRandomCombination_uniform (combinations : CombinationList) :
  combinations <> [] ->
  (vector_size combinations < size_modulus)%N ->
  (forall drawn,
      In drawn (outcomes (selection_distribution combinations)) ->
      (drawn < vector_size combinations)%N
      /\ exists c, selectRandomCombination combinations drawn = Some c
                   /\ In c combinations)
  /\ map (selectRandomCombination combinations)
         (outcomes (selection_distribution combinations))
     = map Some combinations
  /\ (forall c,
         NoDup combinations -> In c combinations ->
         probability
           (fun drawn => returns c (selectRandomCombination combinations drawn))
           (outcomes (selection_distribution combinations))
         = Qmake 1 (Pos.of_nat (length combinations))).
Proof.
  intros Hne Hsize. split; [|split].
  - intros drawn Hin. rewrite selection_outcomes in Hin by assumption.
    apply in_map_iff in Hin as (n & <- & Hn). apply in_seq in Hn.
    split; [unfold vector_size; lia|].
    unfold selectRandomCombination. rewrite Nat2N.id.
    destruct (nth_error combinations n) as [c|] eqn:E.
    + exists c. split; [reflexivity|]. eapply nth_error_In; eassumption.
    + apply nth_error_None in E. lia.
  - now apply selection_results.
  - intros c Hnd Hin. unfold probability.
    rewrite (filter_map_length (selectRandomCombination combinations)
               (returns c)).
    rewrite selection_results by assumption.
    rewrite <- (filter_map_length Some (returns c)). simpl.
    rewrite occurs_once by assumption.
    rewrite selection_outcomes by assumption.
    now rewrite length_map, length_seq.
Qed.

Lemma selectRandomCombination_uniform_witness :
  map (selectRandomCombination (generateAllCombinations 4))
      (outcomes (selection_distribution (generateAllCombinations 4)))
  = map Some (generateAllCombinations 4).
Proof.
  apply (selectRandomCombination_uniform (generateAllCombinations 4)).
  - vm_compute. discriminate.
  - vm_compute. reflexivity.
Defined.

(** ** Console input *)

Lemma level_loop_in_range (fuel : nat) :
  forall st prompts level s n,
    level_loop fuel st prompts = Some (level, s, n) ->
    4 <= level <= 10 /\ fail s = false.
Proof.
  induction fuel as [|fuel IH]; intros st prompts level s n; simpl;
    destruct (level_rejected (fst st) (snd st)) eqn:E;
    try discriminate; try (now apply IH);
    intros H; injection H as <- <- <-;
    unfold level_rejected in E;
    apply orb_false_iff in E as [E E3]; apply orb_false_iff in E as [E1 E2];
    split; try assumption; lia.
Qed.

Lemma level_loop_enough_fuel (n : nat) :
  forall st prompts fuel,
    (forall k, (k < n)%nat ->
               level_rejected (fst (attempt k st)) (snd (attempt k st)) = true) ->
    level_rejected (fst (attempt n st)) (snd (attempt n st)) = false ->
    (n <= fuel)%nat ->
    level_loop fuel st prompts
    = Some (fst (attempt n st), snd (attempt n st), (prompts + n)%nat).
Proof.
  induction n as [|n IH]; intros st prompts fuel Hbad Hgood Hfuel.
  - cbn [attempt] in *. destruct fuel; cbn [level_loop]; rewrite Hgood;
      now rewrite Nat.add_0_r.
  - destruct fuel as [|fuel]; [lia|].
    assert (H0 := Hbad 0%nat ltac:(lia)). cbn [attempt] in H0.
    cbn [level_loop]. rewrite H0.
    rewrite (IH (ask_again st) (S prompts) fuel).
    + cbn [attempt]. do 2 f_equal. lia.
    + intros k Hk. apply (Hbad (S k)). lia.
    + exact Hgood.
    + lia.
Qed.

(** Once the input has ended, no run of the loop body ends the loop. *)
Lemma level_loop_at_end (fuel : nat) :
  forall level s prompts,
    unread s = [] -> failbit s = true ->
    level_loop fuel (level, s) prompts = None.
Proof.
  induction fuel as [|fuel IH]; intros level s prompts Hu Hf; simpl;
    unfold level_rejected, fail; rewrite Hf; simpl; [reflexivity|].
  unfold ask_again. simpl. unfold ignore_line, clear. simpl. rewrite Hu.
  simpl. now apply IH.
Qed.

Lemma getDifficultyLevel_at_end (fuel : nat) (s : istream) :
  unread s = [] -> getDifficultyLevel fuel s = None.
Proof.
  intros Hu. unfold getDifficultyLevel, read_int. rewrite Hu.
  destruct (good s); simpl; apply level_loop_at_end; simpl; auto.
Qed.

Lemma span_token (p : ascii -> bool) (token : list ascii) (w : ascii)
    (rest : list ascii) :
  forallb p token = true -> p w = false ->
  span p (token ++ w :: rest) = (token, w :: rest).
Proof.
  intros Ht Hw. induction token as [|c token IH]; simpl in *.
  - now rewrite Hw.
  - apply andb_true_iff in Ht as [Hc Ht]. now rewrite Hc, IH.
Qed.

Lemma read_token_token (token : list ascii) (w : ascii) (rest old : list ascii) :
  token <> [] -> forallb nonspace token = true -> isspace w = true ->
  read_token (mkIstream (token ++ w :: rest) false false) old
  = (token, mkIstream (w :: rest) false false).
Proof.
  intros Hne Ht Hw. unfold read_token. simpl.
  destruct token as [|c token]; [contradiction|].
  simpl in Ht. apply andb_true_iff in Ht as [Hc Ht].
  assert (Hs : isspace c = false) by (unfold nonspace in Hc; now destruct (isspace c)).
  cbn [app skip_whitespace]. rewrite Hs. rewrite Hc.
  rewrite (span_token nonspace token w rest).
  - reflexivity.
  - exact Ht.
  - unfold nonspace. now rewrite Hw.
Qed.

Lemma playerGuess_defined (token : list ascii) :
  (3 <= length token)%nat -> exists g, playerGuess token = Some g.
Proof.
  intros H. destruct token as [|a [|b [|c [|d token]]]]; simpl in H; try lia;
    eexists; reflexivity.
Qed.

(** C7 as the code has it: [getDifficultyLevel] runs its loop body, which
    prompts again, for as long as the read failed or the value is outside
    4..10; whatever it returns is between 4 and 10, it returns as soon as an
    attempt is not rejected, and it does not return on input that has ended.
    [humanPlayer] checks nothing: every token of at least three characters
    is turned into a guess and scored. *)
Theorem input_validation :
  (forall fuel s level s' prompts,
      getDifficultyLevel fuel s = Some (level, s', prompts) ->
      4 <= level <= 10)
  /\ (forall n s fuel,
         (forall k, (k < n)%nat ->
                    level_rejected (fst (attempt k (read_int s 0)))
                                   (snd (attempt k (read_int s 0))) = true) ->
         level_rejected (fst (attempt n (read_int s 0)))
                        (snd (attempt n (read_int s 0))) = false ->
         (n <= fuel)%nat ->
         getDifficultyLevel fuel s
         = Some (fst (attempt n (read_int s 0)),
                 snd (attempt n (read_int s 0)), n))
  /\ (forall fuel s, unread s = [] -> getDifficultyLevel fuel s = None)
  /\ (forall secretCode token w rest,
         (3 <= length token)%nat ->
         forallb nonspace token = true ->
         isspace w = true ->
         exists guess,
           playerGuess token = Some guess
           /\ humanPlayer_round secretCode
                (mkIstream (token ++ w :: rest) false false)
              = Some (guess, calculateScore guess secretCode,
                      mkIstream (w :: rest) false false)).
Proof.
  split; [|split; [|split]].
  - intros fuel s level s' prompts H.
    unfold getDifficultyLevel in H. now apply level_loop_in_range in H.
  - intros n s fuel Hbad Hgood Hfuel. unfold getDifficultyLevel.
    now rewrite (level_loop_enough_fuel n).
  - intros fuel s. apply getDifficultyLevel_at_end.
  - intros secretCode token w rest Hlen Ht Hw.
    destruct (playerGuess_defined token Hlen) as (guess & Hg).
    exists guess. split; [exact Hg|].
    unfold humanPlayer_round. rewrite read_token_token; try assumption.
    + now rewrite Hg.
    + intros ->. simpl in Hlen. lia.
Qed.

Lemma input_validation_witness :
  getDifficultyLevel 1
    (stream_of ("abc" ++ newline ++ "7" ++ newline)%string)
  = Some (7, mkIstream (list_ascii_of_string newline) false false, 1%nat)
  /\ 4 <= 7 <= 10.
Proof.
  destruct input_validation as (Hrange & Hfuel & _ & _).
  assert (E : getDifficultyLevel 1
                (stream_of ("abc" ++ newline ++ "7" ++ newline)%string)
              = Some (7, mkIstream (list_ascii_of_string newline) false false,
                      1%nat)).
  { apply (Hfuel 1%nat).
    - intros [|k] Hk; [reflexivity | lia].
    - reflexivity.
    - lia. }
  split; [exact E | exact (Hrange _ _ _ _ _ E)].
Defined.

(** C7 as stated fails on the human player's guess: at level 4 the token
    [9x!?] is not four digits in range, yet it is scored as the guess
    (9, 72, -15, 15).  It also fails on input that ends: on the input [abc]
    without a line behind it, [getDifficultyLevel] returns nothing, however
    long it runs. *)
Lemma humanPlayer_scores_malformed_guess :
  (humanPlayer_round (mkCombination 0 1 2 3) (stream_of "9x!? 0123")
   = Some (mkCombination 9 72 (-15) 15, mkScore 0 0, stream_of " 0123")
   /\ ~ well_formed_guess 4 (list_ascii_of_string "9x!?"))
  /\ (forall fuel, getDifficultyLevel fuel (stream_of "abc") = None).
Proof.
  split; [split; [reflexivity|]|].
  - intros (g & _ & Hg & (Hrange & _) & _).
    vm_compute in Hg. injection Hg as <-. simpl in Hrange. lia.
  - intros fuel. unfold getDifficultyLevel.
    change (read_int (stream_of "abc") 0)
      with (0, mkIstream (list_ascii_of_string "abc") true false).
    destruct fuel as [|fuel]; [reflexivity|].
    change (level_loop (S fuel)
              (0, mkIstream (list_ascii_of_string "abc") true false) 0)
      with (level_loop fuel (0, mkIstream [] true true) 1).
    now apply level_loop_at_end.
Qed.

Lemma humanPlayer_scores_nonempty (fuel : nat) (secretCode : DigitCombination)
    (s s' : istream) (scores : list Score) :
  humanPlayer fuel secretCode s = Some (scores, s') -> scores <> [].
Proof.
  destruct fuel as [|fuel]; simpl; [discriminate|].
  destruct (humanPlayer_round secretCode s) as [[[g score] s1]|];
    [|discriminate].
  destruct (keep_guessing score).
  - destruct (humanPlayer fuel secretCode s1) as [[scores' s2]|];
      [|discriminate].
    intros H. injection H as <- _. discriminate.
  - intros H. injection H as <- _. discriminate.
Qed.

(** The loop of [humanPlayer] is left after a round exactly when the guess
    of that round is the secret. *)
Lemma humanPlayer_stops_on_secret (fuel : nat)
    (secretCode guess : DigitCombination) (s s' : istream) (score : Score) :
  humanPlayer_round secretCode s = Some (guess, score, s') ->
  (humanPlayer (S fuel) secretCode s = Some ([score], s')
   <-> guess = secretCode).
Proof.
  intros Hround. cbn [humanPlayer]. rewrite Hround.
  assert (Hscore : score = calculateScore guess secretCode).
  { unfold humanPlayer_round in Hround.
    destruct (read_token s []) as [input s1].
    destruct (playerGuess input); [|discriminate].
    now injection Hround as <- <- <-. }
  pose proof (right_position_four guess secretCode) as Hfour.
  pose proof (score_bounds guess secretCode) as Hb.
  rewrite <- Hscore in Hfour, Hb. unfold keep_guessing.
  destruct (Z.ltb_spec (right_position score) 4) as [Hlt|Hge].
  - split.
    + destruct (humanPlayer fuel secretCode s') as [[scores s2]|] eqn:E;
        [|discriminate].
      intros H. injection H as H _. subst scores.
      now apply humanPlayer_scores_nonempty in E.
    + intros H. apply Hfour in H. lia.
  - split; [intros _; apply Hfour; lia | reflexivity].
Qed.

(** [menu] leaves its loop on every value that is not above 2: a negative
    choice is returned. *)
Example menu_returns_negative :
  forall indeterminate,
    menu 1 indeterminate (stream_of ("-1" ++ newline)%string)
    = Some (-1, mkIstream (list_ascii_of_string newline) false false).
Proof. reflexivity. Qed.

(** * Further properties of the program *)

(** ** The candidate list as the set of consistent combinations *)

Lemma consistent_cons (o : Observation) (obs : list Observation)
    (c : DigitCombination) :
  consistent (o :: obs) c
  <-> calculateScore (fst o) c = snd o /\ consistent obs c.
Proof.
  unfold consistent. split.
  - intros H. inversion H; subst. auto.
  - intros [H1 H2]. now constructor.
Qed.

Lemma apply_observations_In (obs : list Observation) (v : CombinationList)
    (c : DigitCombination) :
  In c (apply_observations obs v) <-> In c v /\ consistent obs c.
Proof.
  revert v. induction obs as [|[g sc] obs IH]; intros v.
  - simpl. unfold consistent. intuition.
  - cbn [apply_observations fold_left fst snd].
    fold (apply_observations obs (filterCombinations v g sc)).
    rewrite IH, filterCombinations_In, consistent_cons. cbn [fst snd]. tauto.
Qed.

Lemma apply_observations_cons (o : Observation) (obs : list Observation)
    (v : CombinationList) :
  apply_observations (o :: obs) v
  = apply_observations obs (filterCombinations v (fst o) (snd o)).
Proof. reflexivity. Qed.

Lemma apply_observations_length (obs : list Observation)
    (v : CombinationList) :
  (length (apply_observations obs v) <= length v)%nat.
Proof.
  revert v. induction obs as [|[g sc] obs IH]; intros v.
  - simpl. lia.
  - rewrite apply_observations_cons. cbn [fst snd].
    specialize (IH (filterCombinations v g sc)).
    rewrite filterCombinations_filter in IH |- *.
    pose proof (filter_length_le (same_score g sc) v). lia.
Qed.

(** X1: after any sequence of calls of [filterCombinations] the list holds
    exactly the candidates of the original list that agree with every
    (guess, score) pair, and it is never longer than the original list. *)
Theorem apply_observations_consistent (obs : list Observation)
    (combinations : CombinationList) :
  (forall c, In c (apply_observations obs combinations)
             <-> In c combinations /\ consistent obs c)
  /\ (length (apply_observations obs combinations)
      <= length combinations)%nat.
Proof.
  split; [intros c; apply apply_observations_In|].
  apply apply_observations_length.
Qed.

(** X2: filtering twice on the same guess and score changes nothing more,
    and two filterings give the same list in either order. *)
Theorem filterCombinations_idempotent_commute (v : CombinationList)
    (g1 g2 : DigitCombination) (s1 s2 : Score) :
  filterCombinations (filterCombinations v g1 s1) g1 s1
  = filterCombinations v g1 s1
  /\ filterCombinations (filterCombinations v g1 s1) g2 s2
     = filterCombinations (filterCombinations v g2 s2) g1 s1.
Proof.
  rewrite !filterCombinations_filter. split.
  - rewrite <- filter_andb. apply filter_ext. intros c.
    now destruct (same_score g1 s1 c).
  - rewrite <- !filter_andb. apply filter_ext. intros c. apply andb_comm.
Qed.

(** ** Order of the generated list *)

Section SortedLists.
Context {A B : Type}.
Variable R : A -> A -> Prop.

Lemma StronglySorted_app (l1 l2 : list A) :
  StronglySorted R l1 -> StronglySorted R l2 ->
  (forall a b, In a l1 -> In b l2 -> R a b) ->
  StronglySorted R (l1 ++ l2).
Proof.
  induction 1 as [|x l1 Hs IH Hx]; intros H2 Hcross; simpl.
  - exact H2.
  - constructor.
    + apply IH; [exact H2|]. intros a b Ha Hb. apply Hcross; [now right|exact Hb].
    + apply Forall_app. split; [exact Hx|].
      apply Forall_forall. intros b Hb. apply Hcross; [now left|exact Hb].
Qed.

Lemma StronglySorted_flat_map (Rb : B -> B -> Prop) (f : B -> list A)
    (l : list B) :
  StronglySorted Rb l ->
  (forall x, In x l -> StronglySorted R (f x)) ->
  (forall x y a b, Rb x y -> In a (f x) -> In b (f y) -> R a b) ->
  StronglySorted R (flat_map f l).
Proof.
  intros Hl Hf Hcross. induction Hl as [|x l Hs IH Hx]; simpl.
  - constructor.
  - apply StronglySorted_app.
    + apply Hf. now left.
    + apply IH. intros y Hy. apply Hf. now right.
    + intros a b Ha Hb. apply in_flat_map in Hb as (y & Hy & Hb).
      rewrite Forall_forall in Hx. eapply Hcross; eauto.
Qed.

Lemma StronglySorted_filter (p : A -> bool) (l : list A) :
  StronglySorted R l -> StronglySorted R (filter p l).
Proof.
  induction 1 as [|x l Hs IH Hx]; simpl; [constructor|].
  destruct (p x); [|exact IH]. constructor; [exact IH|].
  rewrite Forall_forall in *. intros y Hy. apply Hx.
  now apply filter_In in Hy.
Qed.
End SortedLists.

Lemma seq_sorted (start n : nat) :
  StronglySorted (fun a b => Z.of_nat a < Z.of_nat b) (seq start n).
Proof.
  revert start. induction n as [|n IH]; intros start; simpl; constructor.
  - apply IH.
  - apply Forall_forall. intros y Hy. apply in_seq in Hy. lia.
Qed.

Lemma counter_values_sorted (level : Z) :
  StronglySorted Z.lt (counter_values level).
Proof.
  unfold counter_values.
  generalize (seq_sorted 0 (Z.to_nat level)).
  generalize (seq 0 (Z.to_nat level)). intros l.
  induction 1 as [|x l Hs IH Hx]; simpl; constructor; [exact IH|].
  rewrite Forall_forall in *. intros y Hy.
  apply in_map_iff in Hy as (n & <- & Hn). now apply Hx.
Qed.

Lemma combinations_ijk_sorted (level i j k : Z) :
  StronglySorted lex_lt (combinations_ijk level i j k).
Proof.
  unfold combinations_ijk.
  apply (StronglySorted_flat_map lex_lt Z.lt);
    [apply counter_values_sorted | |].
  - intros l _. destruct (all_different i j k l); repeat constructor.
  - intros l l' a b Hlt Ha Hb.
    destruct (all_different i j k l); [|contradiction].
    destruct (all_different i j k l'); [|contradiction].
    destruct Ha as [<-|[]], Hb as [<-|[]]. unfold lex_lt. simpl. tauto.
Qed.

Lemma combinations_ij_sorted (level i j : Z) :
  StronglySorted lex_lt (combinations_ij level i j).
Proof.
  unfold combinations_ij.
  apply (StronglySorted_flat_map lex_lt Z.lt);
    [apply counter_values_sorted | |].
  - intros k _. apply combinations_ijk_sorted.
  - intros k k' a b Hlt Ha Hb.
    apply combinations_ijk_In in Ha as (? & ? & ? & _).
    apply combinations_ijk_In in Hb as (? & ? & ? & _).
    unfold lex_lt. right. split; [congruence|]. right. split; [congruence|].
    left. lia.
Qed.

Lemma combinations_i_sorted (level i : Z) :
  StronglySorted lex_lt (combinations_i level i).
Proof.
  unfold combinations_i.
  apply (StronglySorted_flat_map lex_lt Z.lt);
    [apply counter_values_sorted | |].
  - intros j _. apply combinations_ij_sorted.
  - intros j j' a b Hlt Ha Hb.
    apply combinations_ij_In in Ha as (? & ? & _).
    apply combinations_ij_In in Hb as (? & ? & _).
    unfold lex_lt. right. split; [congruence|]. left. lia.
Qed.

Lemma generateAllCombinations_sorted (level : Z) :
  StronglySorted lex_lt (generateAllCombinations level).
Proof.
  rewrite generateAllCombinations_flat_map.
  apply (StronglySorted_flat_map lex_lt Z.lt);
    [apply counter_values_sorted | |].
  - intros i _. apply combinations_i_sorted.
  - intros i i' a b Hlt Ha Hb.
    apply combinations_i_In in Ha as (? & _).
    apply combinations_i_In in Hb as (? & _).
    unfold lex_lt. left. lia.
Qed.

Lemma apply_observations_filter (obs : list Observation)
    (v : CombinationList) :
  exists p, apply_observations obs v = filter p v.
Proof.
  revert v. induction obs as [|[g sc] obs IH]; intros v.
  - exists (fun _ => true). simpl. now rewrite filter_every.
  - cbn [apply_observations fold_left fst snd].
    destruct (IH (filterCombinations v g sc)) as (p & Hp).
    unfold apply_observations in Hp. rewrite Hp, filterCombinations_filter.
    exists (fun c => p c && same_score g sc c). now rewrite filter_andb.
Qed.

(** X3: the generated list is in increasing order of the digit sequences
    read from the left, and every list the program derives from it by
    filtering keeps that order, has no duplicate and holds only valid
    combinations of the level. *)
Theorem candidates_sorted_valid (level : Z) (obs : list Observation) :
  StronglySorted lex_lt (generateAllCombinations level)
  /\ StronglySorted lex_lt
       (apply_observations obs (generateAllCombinations level))
  /\ NoDup (apply_observations obs (generateAllCombinations level))
  /\ Forall (valid_combination level)
       (apply_observations obs (generateAllCombinations level)).
Proof.
  destruct (apply_observations_filter obs (generateAllCombinations level))
    as (p & ->).
  split; [apply generateAllCombinations_sorted|].
  split; [apply StronglySorted_filter, generateAllCombinations_sorted|].
  split; [apply NoDup_filter, generateAllCombinations_NoDup|].
  apply Forall_forall. intros c Hc. apply filter_In in Hc as [Hc _].
  now apply generateAllCombinations_In.
Qed.

(** X4: no combination is generated below level 4, and at least one from
    level 4 on. *)
Theorem generateAllCombinations_empty_iff (level : Z) :
  generateAllCombinations level = [] <-> level < 4.
Proof.
  split.
  - intros E. destruct (Z.lt_ge_cases level 4) as [H|H]; [exact H|].
    assert (Hin : In (mkCombination 0 1 2 3) (generateAllCombinations level)).
    { apply generateAllCombinations_In.
      unfold valid_combination, digits_in_range, digits_distinct. simpl. lia. }
    rewrite E in Hin. contradiction.
  - intros H. destruct (generateAllCombinations level) as [|c v] eqn:E;
      [reflexivity|].
    assert (Hin : In c (generateAllCombinations level))
      by (rewrite E; now left).
    apply generateAllCombinations_In in Hin as [Hr Hd].
    unfold digits_in_range, digits_distinct in *. lia.
Qed.

(** ** More on scores *)

Lemma search_code_wrong (g : Z) (code : DigitCombination) (js : list nat)
    (score : Score) :
  wrong_position (search_code g code js score)
  = wrong_position score
    + (if existsb (fun j => g =? digit code j) js then 1 else 0).
Proof.
  induction js as [|j js IH]; simpl.
  - lia.
  - destruct (g =? digit code j); simpl; [lia | exact IH].
Qed.

Lemma score_position_total (guess code : DigitCombination) (i : nat)
    (score : Score) :
  In i positions ->
  right_position (score_position guess code i score)
  + wrong_position (score_position guess code i score)
  = right_position score + wrong_position score
    + (if occurs_in guess code i then 1 else 0).
Proof.
  intros Hi. unfold score_position, occurs_in.
  destruct (Z.eqb_spec (digit guess i) (digit code i)) as [E|E].
  - replace (existsb (fun j => digit guess i =? digit code j) positions)
      with true; [simpl; lia|].
    symmetry. apply existsb_exists. exists i.
    split; [exact Hi | now apply Z.eqb_eq].
  - rewrite search_code_wrong.
    destruct (search_code_effect (digit guess i) code positions score)
      as [-> _]. lia.
Qed.

Lemma score_loop_total (guess code : DigitCombination) (ps : list nat)
    (score : Score) :
  incl ps positions ->
  right_position (score_loop guess code ps score)
  + wrong_position (score_loop guess code ps score)
  = right_position score + wrong_position score
    + Z.of_nat (length (filter (occurs_in guess code) ps)).
Proof.
  revert score. induction ps as [|i ps IH]; intros score Hincl; simpl.
  - lia.
  - rewrite IH by (intros x Hx; apply Hincl; now right).
    rewrite score_position_total by (apply Hincl; now left).
    destruct (occurs_in guess code i); simpl length; lia.
Qed.

(** X5: for any guess and code, the two counters of the score add up to the
    number of guess positions whose digit occurs somewhere in the code. *)
Theorem calculateScore_total (guess code : DigitCombination) :
  right_position (calculateScore guess code)
  + wrong_position (calculateScore guess code)
  = Z.of_nat (length (filter (occurs_in guess code) positions)).
Proof.
  unfold calculateScore. rewrite score_loop_total by apply incl_refl.
  reflexivity.
Qed.

(** X6: on two combinations of pairwise distinct digits the score does not
    depend on which one is the guess. *)
Theorem calculateScore_symmetric (guess code : DigitCombination) :
  digits_distinct guess ->
  digits_distinct code ->
  calculateScore guess code = calculateScore code guess.
Proof.
  destruct guess as [g0 g1 g2 g3], code as [c0 c1 c2 c3].
  unfold digits_distinct. simpl.
  intros (G01 & G02 & G03 & G12 & G13 & G23)
         (C01 & C02 & C03 & C12 & C13 & C23).
  unfold calculateScore, positions, score_loop, score_position, search_code,
    digit, Score_default, incr_right, incr_wrong.
  cbn [d0 d1 d2 d3].
  repeat (decide_digits; cbn -[Z.add Z.eqb]); reflexivity.
Qed.

Lemma calculateScore_symmetric_witness :
  calculateScore (mkCombination 1 2 3 4) (mkCombination 2 1 3 5)
  = calculateScore (mkCombination 2 1 3 5) (mkCombination 1 2 3 4).
Proof.
  apply (calculateScore_symmetric (mkCombination 1 2 3 4)
           (mkCombination 2 1 3 5));
    unfold digits_distinct; simpl; repeat split; lia.
Defined.

(** Without distinct digits in the code the score does depend on it. *)
Example calculateScore_not_symmetric :
  calculateScore (mkCombination 1 2 3 4) (mkCombination 5 1 1 6) = mkScore 0 1
  /\ calculateScore (mkCombination 5 1 1 6) (mkCombination 1 2 3 4)
     = mkScore 0 2.
Proof. split; reflexivity. Qed.

Lemma three_right_no_wrong (guess code : DigitCombination) :
  digits_distinct guess ->
  right_position (calculateScore guess code) = 3 ->
  wrong_position (calculateScore guess code) = 0.
Proof.
  destruct guess as [g0 g1 g2 g3], code as [c0 c1 c2 c3].
  unfold digits_distinct. simpl.
  intros (G01 & G02 & G03 & G12 & G13 & G23).
  unfold calculateScore, positions, score_loop, score_position, search_code,
    digit, Score_default, incr_right, incr_wrong.
  cbn [d0 d1 d2 d3].
  repeat (decide_digits; cbn -[Z.eqb]); simpl; intros; lia.
Qed.

(** X7: a guess of pairwise distinct digits never scores three positional
    matches together with another match, so filtering any list on such a
    guess with the score (3, 1) leaves it empty. *)
Theorem score_three_one_impossible (guess : DigitCombination)
    (v : CombinationList) :
  digits_distinct guess ->
  (forall code, calculateScore guess code <> mkScore 3 1)
  /\ filterCombinations v guess (mkScore 3 1) = [].
Proof.
  intros Hd.
  assert (H : forall code, calculateScore guess code <> mkScore 3 1).
  { intros code E.
    pose proof (three_right_no_wrong guess code Hd) as H.
    rewrite E in H. simpl in H. specialize (H eq_refl). discriminate. }
  split; [exact H|].
  rewrite filterCombinations_filter. apply filter_none.
  intros c _. apply not_true_iff_false. intros E.
  apply same_score_iff in E. now apply (H c).
Qed.

Lemma score_three_one_impossible_witness :
  filterCombinations (generateAllCombinations 4) (mkCombination 0 1 2 3)
    (mkScore 3 1) = [].
Proof.
  apply (score_three_one_impossible (mkCombination 0 1 2 3)
           (generateAllCombinations 4)).
  unfold digits_distinct; simpl; repeat split; lia.
Defined.

(** ** The computer's moves *)

Lemma filter_length_lt {A : Type} (p : A -> bool) (l : list A) (x : A) :
  In x l -> p x = false -> (length (filter p l) < length l)%nat.
Proof.
  induction l as [|y l IH]; intros Hin Hp; simpl.
  - contradiction.
  - pose proof (filter_length_le p l) as Hle.
    destruct Hin as [->|Hin].
    + rewrite Hp. lia.
    + specialize (IH Hin Hp). destruct (p y); simpl; lia.
Qed.

Lemma selection_defined (dis_gen : CombinationList -> N)
    (v : CombinationList) :
  draws_in_range dis_gen -> v <> [] -> (vector_size v < size_modulus)%N ->
  exists guess,
    selectRandomCombination v (dis_gen v) = Some guess /\ In guess v.
Proof.
  intros Hdraw Hne Hsize. specialize (Hdraw v Hne).
  rewrite selection_outcomes in Hdraw by assumption.
  apply in_map_iff in Hdraw as (n & <- & Hn). apply in_seq in Hn.
  unfold selectRandomCombination. rewrite Nat2N.id.
  destruct (nth_error v n) as [c|] eqn:E.
  - exists c. split; [reflexivity|]. eapply nth_error_In; eassumption.
  - apply nth_error_None in E. lia.
Qed.

Lemma selection_member (v : CombinationList) (drawn : N)
    (guess : DigitCombination) :
  selectRandomCombination v drawn = Some guess -> In guess v.
Proof. unfold selectRandomCombination. apply nth_error_In. Qed.

(** The two ways a move can go. *)
Lemma performComputerMove_cases (dis_gen : CombinationList -> N)
    (v : CombinationList) (s : istream) :
  match selectRandomCombination v (dis_gen v) with
  | None => performComputerMove dis_gen v s = None
  | Some guess =>
      (fst (read_int s 0) = 4
       /\ performComputerMove dis_gen v s
          = Some (true, (guess, mkScore 4 0), v, snd (read_int s 0)))
      \/ (fst (read_int s 0) <> 4
          /\ performComputerMove dis_gen v s
             = let right := fst (read_int s 0) in
               let wrong := fst (read_int (snd (read_int s 0)) 0) in
               Some (false, (guess, mkScore right wrong),
                     filterCombinations v guess (mkScore right wrong),
                     snd (read_int (snd (read_int s 0)) 0)))
  end.
Proof.
  unfold performComputerMove.
  destruct (selectRandomCombination v (dis_gen v)) as [guess|];
    [|reflexivity].
  cbn [Score_default right_position wrong_position].
  destruct (read_int s 0) as [right s1]. cbn [fst snd].
  destruct (Z.eqb_spec right 4) as [->|Hne].
  - left. auto.
  - right. split; [exact Hne|].
    destruct (read_int s1 0) as [wrong s2]. reflexivity.
Qed.

Lemma guess_filtered_out (v : CombinationList) (guess : DigitCombination)
    (score : Score) :
  right_position score <> 4 ->
  ~ In guess (filterCombinations v guess score).
Proof.
  intros Hne Hin. apply filterCombinations_In in Hin as [_ E].
  pose proof (proj2 (right_position_four guess guess) eq_refl) as H4.
  rewrite E in H4. contradiction.
Qed.

Lemma performComputerMove_inv (dis_gen : CombinationList -> N)
    (v v' : CombinationList) (s s' : istream) (codeGuessed : bool)
    (guess : DigitCombination) (score : Score) :
  performComputerMove dis_gen v s
  = Some (codeGuessed, (guess, score), v', s') ->
  In guess v
  /\ (codeGuessed = true -> v' = v /\ score = mkScore 4 0)
  /\ (codeGuessed = false ->
      v' = filterCombinations v guess score
      /\ right_position score <> 4
      /\ ~ In guess v'
      /\ (length v' < length v)%nat).
Proof.
  intros H. pose proof (performComputerMove_cases dis_gen v s) as C.
  destruct (selectRandomCombination v (dis_gen v)) as [g|] eqn:Esel;
    [|congruence].
  apply selection_member in Esel.
  destruct C as [[_ C]|[Hne C]]; rewrite C in H; cbv zeta in H;
    injection H as <- <- <- <- <-.
  - split; [exact Esel|]. split; [auto | discriminate].
  - split; [exact Esel|]. split; [discriminate|]. intros _.
    split; [reflexivity|]. split; [exact Hne|].
    split; [now apply guess_filtered_out|].
    rewrite filterCombinations_filter.
    apply (filter_length_lt _ _ g Esel).
    apply not_true_iff_false. intros E. apply same_score_iff in E.
    pose proof (proj2 (right_position_four g g) eq_refl) as H4.
    rewrite E in H4. simpl in H4. contradiction.
Qed.



Lemma empty_iff (v : CombinationList) : empty v = true <-> v = [].
Proof. destruct v; simpl; split; congruence. Qed.

Lemma shorter_fits (v v' : CombinationList) :
  (length v' <= length v)%nat ->
  (vector_size v < size_modulus)%N -> (vector_size v' < size_modulus)%N.
Proof. unfold vector_size. lia. Qed.

(** X9: whatever the input is, a game in which the computer guesses ends
    within as many moves as the list has candidates. *)
Theorem computerPlayer_terminates (dis_gen : CombinationList -> N)
    (fuel : nat) :
  draws_in_range dis_gen ->
  forall (v : CombinationList) (s : istream),
    v <> [] ->
    (vector_size v < size_modulus)%N ->
    (length v <= fuel)%nat ->
    exists ending moves v' s',
      computerPlayer fuel dis_gen v s = Some (ending, moves, v', s')
      /\ (length moves <= length v)%nat.
Proof.
  intros Hdraw. induction fuel as [|fuel IH]; intros v s Hne Hsize Hfuel.
  - destruct v; [contradiction | simpl in Hfuel; lia].
  - destruct (selection_defined dis_gen v Hdraw Hne Hsize) as (g & Hg & Hin).
    cbn [computerPlayer].
    pose proof (performComputerMove_cases dis_gen v s) as C. rewrite Hg in C.
    destruct C as [[_ C]|[Hne4 C]]; rewrite C; cbv beta iota zeta.
    + replace (empty v) with false
        by (symmetry; apply not_true_iff_false; now rewrite empty_iff).
      simpl. do 4 eexists. split; [reflexivity|].
      destruct v; [contradiction | simpl; lia].
    + set (score := mkScore (fst (read_int s 0))
                            (fst (read_int (snd (read_int s 0)) 0))).
      set (s2 := snd (read_int (snd (read_int s 0)) 0)).
      assert (Hlt : (length (filterCombinations v g score) < length v)%nat).
      { rewrite filterCombinations_filter.
        apply (filter_length_lt _ _ g Hin).
        apply not_true_iff_false. intros E. apply same_score_iff in E.
        pose proof (proj2 (right_position_four g g) eq_refl) as H4.
        rewrite E in H4. subst score. simpl in H4. contradiction. }
      destruct (empty (filterCombinations v g score)) eqn:Eempty; simpl.
      * do 4 eexists. split; [reflexivity|]. simpl. lia.
      * assert (Hne' : filterCombinations v g score <> [])
          by (intros E; apply empty_iff in E; congruence).
        destruct (IH (filterCombinations v g score) s2 Hne')
          as (ending & moves & v' & s' & Hrun & Hlen);
          [eapply shorter_fits; [|exact Hsize]; lia | lia |].
        rewrite Hrun. do 4 eexists. split; [reflexivity|]. simpl. lia.
Qed.

Lemma zero_draws_in_range : draws_in_range (fun _ => 0%N).
Proof.
  intros v _. unfold outcomes. apply in_map_iff. exists 0%nat.
  split; [reflexivity|]. apply in_seq. simpl dist_a. lia.
Qed.

Lemma computerPlayer_terminates_witness :
  exists ending moves v' s',
    computerPlayer 24 (fun _ => 0%N) (generateAllCombinations 4)
      (stream_of "1 1 x")
    = Some (ending, moves, v', s')
    /\ (length moves <= length (generateAllCombinations 4))%nat.
Proof.
  apply (computerPlayer_terminates (fun _ => 0%N) 24 zero_draws_in_range
           (generateAllCombinations 4) (stream_of "1 1 x")).
  - vm_compute. discriminate.
  - vm_compute. reflexivity.
  - vm_compute. lia.
Defined.

(** Unfolding of one turn of the game loop on the result of its move. *)
Lemma computerPlayer_step (fuel : nat) (dis_gen : CombinationList -> N)
    (v : CombinationList) (s : istream) (r : GameEnd * list Observation
                                            * CombinationList * istream) :
  computerPlayer (S fuel) dis_gen v s = Some r ->
  exists codeGuessed guess score v1 s1,
    performComputerMove dis_gen v s
    = Some (codeGuessed, (guess, score), v1, s1)
    /\ ((codeGuessed = true /\ r = (CodeGuessed, [(guess, score)], v1, s1))
        \/ (codeGuessed = false /\ v1 = []
            /\ r = (InputError, [(guess, score)], v1, s1))
        \/ (codeGuessed = false /\ v1 <> []
            /\ exists ending moves v' s',
                computerPlayer fuel dis_gen v1 s1
                = Some (ending, moves, v', s')
                /\ r = (ending, (guess, score) :: moves, v', s'))).
Proof.
  cbn [computerPlayer].
  destruct (performComputerMove dis_gen v s)
    as [[[[codeGuessed [guess score]] v1] s1]|] eqn:Emove; [|discriminate].
  intros H. exists codeGuessed, guess, score, v1, s1.
  split; [reflexivity|].
  destruct codeGuessed; simpl in H.
  - rewrite andb_false_r in H. cbv iota in H. left.
    split; [reflexivity | now injection H as <-].
  - rewrite andb_true_r in H. right.
    destruct (empty v1) eqn:Eempty.
    + left. apply empty_iff in Eempty. split; [reflexivity|].
      split; [exact Eempty | now injection H as <-].
    + right. split; [reflexivity|].
      split; [intros E; apply empty_iff in E; congruence|].
      destruct (computerPlayer fuel dis_gen v1 s1)
        as [[[[ending moves] v'] s']|]; [|discriminate].
      exists ending, moves, v', s'. split; [reflexivity | now injection H as <-].
Qed.



(** X11: in a game of the computer every guess is a candidate of the
    original list, no guess is shown twice, and there are at most as many
    moves as the list has candidates. *)
Theorem computerPlayer_guesses (fuel : nat) (dis_gen : CombinationList -> N) :
  forall (v v' : CombinationList) (s s' : istream) (ending : GameEnd)
         (moves : list Observation),
    computerPlayer fuel dis_gen v s = Some (ending, moves, v', s') ->
    Forall (fun o => In (fst o) v) moves
    /\ NoDup (map fst moves)
    /\ (length moves <= length v)%nat.
Proof.
  induction fuel as [|fuel IH]; intros v v' s s' ending moves H;
    [discriminate|].
  apply computerPlayer_step in H
    as (cg & g & sc & v1 & s1 & Hmove & Hcases).
  apply performComputerMove_inv in Hmove as (Hin & Htrue & Hfalse).
  assert (Hpos : (1 <= length v)%nat)
    by (destruct v; [contradiction | simpl; lia]).
  assert (Hone : Forall (fun o : Observation => In (fst o) v) [(g, sc)]
                 /\ NoDup (map fst [(g, sc)])
                 /\ (length [(g, sc)] <= length v)%nat).
  { split; [repeat constructor; exact Hin|].
    split; [repeat constructor; intros []|exact Hpos]. }
  destruct Hcases as [[-> E] | [[-> [-> E]] | [-> [Hne E]]]].
  - injection E as -> -> -> ->. exact Hone.
  - injection E as -> -> -> ->. exact Hone.
  - destruct E as (ending1 & moves1 & v2 & s2 & Hrun & E).
    injection E as -> -> -> ->.
    destruct (Hfalse eq_refl) as (-> & _ & Hout & Hlt).
    destruct (IH _ _ _ _ _ _ Hrun) as (Hall & Hnd & Hlen).
    rewrite Forall_forall in Hall. split; [|split].
    + constructor; [exact Hin|]. apply Forall_forall. intros o Ho.
      apply Hall in Ho. now apply filterCombinations_In in Ho.
    + simpl. constructor; [|exact Hnd]. intros Hg.
      apply in_map_iff in Hg as (o & Eo & Ho). apply Hall in Ho.
      rewrite Eo in Ho. contradiction.
    + simpl. lia.
Qed.

Lemma computerPlayer_guesses_witness :
  NoDup (map fst [(mkCombination 0 1 2 3, mkScore 2 2);
                  (mkCombination 0 1 3 2, mkScore 4 0)]).
Proof.
  apply (computerPlayer_guesses 2 (fun _ => 0%N) (generateAllCombinations 4)
           (filterCombinations (generateAllCombinations 4)
              (mkCombination 0 1 2 3) (mkScore 2 2))
           (stream_of "2 2 4") (mkIstream [] false true) CodeGuessed).
  reflexivity.
Defined.

Lemma record_score (sc : Score) :
  mkScore (right_position sc) (wrong_position sc) = sc.
Proof. now destruct sc. Qed.

(** X12: when the secret is in the list and the input holds the score of
    every guess against the secret, the game ends with the combination
    guessed, its last guess is the secret, and the secret is still in the
    list; no input error is reported. *)
Theorem computerPlayer_finds_secret (dis_gen : CombinationList -> N)
    (secret : DigitCombination) (fuel : nat) :
  draws_in_range dis_gen ->
  forall (v : CombinationList) (s : istream),
    In secret v ->
    (vector_size v < size_modulus)%N ->
    (length v <= fuel)%nat ->
    answered_truthfully fuel dis_gen secret v s ->
    exists earlier v' s',
      computerPlayer fuel dis_gen v s
      = Some (CodeGuessed, earlier ++ [(secret, mkScore 4 0)], v', s')
      /\ In secret v'.
Proof.
  intros Hdraw. induction fuel as [|fuel IH]; intros v s Hin Hsize Hfuel Hans.
  - destruct v; [contradiction | simpl in Hfuel; lia].
  - assert (Hne : v <> []) by (intros ->; contradiction).
    destruct (selection_defined dis_gen v Hdraw Hne Hsize) as (g & Hg & Hgin).
    cbn [answered_truthfully] in Hans. rewrite Hg in Hans. cbv zeta in Hans.
    destruct Hans as [Hright Hrest].
    cbn [computerPlayer].
    pose proof (performComputerMove_cases dis_gen v s) as C. rewrite Hg in C.
    destruct C as [[H4 C]|[Hne4 C]]; rewrite C; cbv beta iota zeta.
    + assert (g = secret)
        by (apply right_position_four; congruence). subst g.
      replace (empty v) with false
        by (symmetry; apply not_true_iff_false; now rewrite empty_iff).
      simpl. exists [], v, (snd (read_int s 0)). split; [reflexivity|exact Hin].
    + rewrite Hright in Hne4. destruct (Hrest Hne4) as [Hwrong Hnext].
      rewrite Hright, Hwrong, record_score.
      set (v1 := filterCombinations v g (calculateScore g secret)) in *.
      assert (Hin1 : In secret v1)
        by (apply filterCombinations_In; auto).
      assert (Hlt : (length v1 < length v)%nat).
      { unfold v1. rewrite filterCombinations_filter.
        apply (filter_length_lt _ _ g Hgin).
        apply not_true_iff_false. intros E. apply same_score_iff in E.
        pose proof (proj2 (right_position_four g g) eq_refl) as H4.
        rewrite E in H4. contradiction. }
      replace (empty v1) with false
        by (symmetry; apply not_true_iff_false; rewrite empty_iff;
            intros E; rewrite E in Hin1; contradiction).
      simpl.
      destruct (IH v1 (snd (read_int (snd (read_int s 0)) 0)) Hin1)
        as (earlier & v' & s' & Hrun & Hsecret);
        [eapply shorter_fits; [|exact Hsize]; lia | lia | exact Hnext |].
      rewrite Hrun.
      exists ((g, calculateScore g secret) :: earlier), v', s'.
      split; [reflexivity | exact Hsecret].
Qed.

Lemma computerPlayer_finds_secret_witness :
  exists earlier v' s',
    computerPlayer 24 (fun _ => 0%N) (generateAllCombinations 4)
      (stream_of "2 2 4")
    = Some (CodeGuessed, earlier ++ [(mkCombination 0 1 3 2, mkScore 4 0)],
            v', s')
    /\ In (mkCombination 0 1 3 2) v'.
Proof.
  apply (computerPlayer_finds_secret (fun _ => 0%N) (mkCombination 0 1 3 2)
           24 zero_draws_in_range (generateAllCombinations 4)
           (stream_of "2 2 4")).
  - apply generateAllCombinations_In.
    unfold valid_combination, digits_in_range, digits_distinct. simpl. lia.
  - vm_compute. reflexivity.
  - vm_compute. lia.
  - vm_compute. split; [reflexivity|]. intros _.
    split; [reflexivity|]. split; [reflexivity|].
    intros H. exfalso. apply H. reflexivity.
Defined.

(** ** The human player's game *)

Lemma humanPlayer_round_score (secretCode guess : DigitCombination)
    (s s' : istream) (score : Score) :
  humanPlayer_round secretCode s = Some (guess, score, s') ->
  score = calculateScore guess secretCode.
Proof.
  unfold humanPlayer_round. destruct (read_token s []) as [input s1].
  destruct (playerGuess input); [|discriminate].
  intros H. now injection H as <- <- <-.
Qed.

Lemma winning_score (guess code : DigitCombination) :
  keep_guessing (calculateScore guess code) = false ->
  calculateScore guess code = mkScore 4 0.
Proof.
  unfold keep_guessing. rewrite Z.ltb_ge. intros H.
  pose proof (score_bounds guess code) as B.
  destruct (calculateScore guess code) as [r w]. simpl in *.
  f_equal; lia.
Qed.

(** X13: when [humanPlayer] returns, the scores it has printed are scores
    with fewer than 4 positional matches followed by the one score (4, 0). *)
Theorem humanPlayer_scores (fuel : nat) (secretCode : DigitCombination) :
  forall (s s' : istream) (scores : list Score),
    humanPlayer fuel secretCode s = Some (scores, s') ->
    exists earlier,
      scores = earlier ++ [mkScore 4 0]
      /\ Forall (fun score => right_position score < 4) earlier.
Proof.
  induction fuel as [|fuel IH]; intros s s' scores; simpl; [discriminate|].
  destruct (humanPlayer_round secretCode s) as [[[g score] s1]|] eqn:Eround;
    [|discriminate].
  apply humanPlayer_round_score in Eround. subst score.
  destruct (keep_guessing (calculateScore g secretCode)) eqn:Ekeep.
  - destruct (humanPlayer fuel secretCode s1) as [[scores1 s2]|] eqn:Erun;
      [|discriminate].
    intros H. injection H as <- <-.
    destruct (IH _ _ _ Erun) as (earlier & -> & Hall).
    exists (calculateScore g secretCode :: earlier). split; [reflexivity|].
    constructor; [|exact Hall]. now apply Z.ltb_lt.
  - intros H. injection H as <- <-. exists []. split; [|constructor].
    simpl. f_equal. now apply winning_score.
Qed.

Lemma humanPlayer_scores_witness :
  exists earlier,
    [mkScore 0 0; mkScore 4 0] = earlier ++ [mkScore 4 0]
    /\ Forall (fun score => right_position score < 4) earlier.
Proof.
  apply (humanPlayer_scores 2 (mkCombination 0 1 2 3)
           (stream_of "9x!? 0123 ") (mkIstream [" "%char] false false)).
  reflexivity.
Defined.

(** ** A guess as printed is a guess as read *)

Lemma show_digit_char (d : Z) :
  0 <= d <= 9 ->
  show_digit d = String (ascii_of_nat (48 + Z.to_nat d)) EmptyString.
Proof.
  intros H.
  assert (E : d = 0 \/ d = 1 \/ d = 2 \/ d = 3 \/ d = 4 \/ d = 5 \/ d = 6
              \/ d = 7 \/ d = 8 \/ d = 9) by lia.
  repeat (destruct E as [-> | E]; [reflexivity|]). subst d. reflexivity.
Qed.

Lemma digit_char_value (d : Z) :
  0 <= d <= 9 ->
  char_to_int (ascii_of_nat (48 + Z.to_nat d)) - 48 = d.
Proof.
  intros H.
  assert (E : d = 0 \/ d = 1 \/ d = 2 \/ d = 3 \/ d = 4 \/ d = 5 \/ d = 6
              \/ d = 7 \/ d = 8 \/ d = 9) by lia.
  repeat (destruct E as [-> | E]; [reflexivity|]). subst d. reflexivity.
Qed.

Lemma digit_char_nonspace (d : Z) :
  0 <= d <= 9 -> nonspace (ascii_of_nat (48 + Z.to_nat d)) = true.
Proof.
  intros H.
  assert (E : d = 0 \/ d = 1 \/ d = 2 \/ d = 3 \/ d = 4 \/ d = 5 \/ d = 6
              \/ d = 7 \/ d = 8 \/ d = 9) by lia.
  repeat (destruct E as [-> | E]; [reflexivity|]). subst d. reflexivity.
Qed.

(** X14: for a combination of digits 0 to 9, the text the computer prints
    for a guess is read back by the human player's conversion as the same
    combination; typed as the guess, the printed secret ends the human
    player's game in one round with the score (4, 0). *)
Theorem show_guess_read_back (c : DigitCombination) (w : ascii)
    (rest : list ascii) (fuel : nat) :
  digits_in_range 10 c ->
  isspace w = true ->
  playerGuess (list_ascii_of_string (show_guess c)) = Some c
  /\ humanPlayer (S fuel) c
       (mkIstream (list_ascii_of_string (show_guess c) ++ w :: rest)
          false false)
     = Some ([mkScore 4 0], mkIstream (w :: rest) false false).
Proof.
  destruct c as [a b c d]. unfold digits_in_range. simpl.
  intros (Ha & Hb & Hc & Hd) Hw.
  unfold show_guess. cbn [d0 d1 d2 d3].
  rewrite !show_digit_char by lia. cbn [String.append list_ascii_of_string].
  assert (Hguess : playerGuess
            [ascii_of_nat (48 + Z.to_nat a); ascii_of_nat (48 + Z.to_nat b);
             ascii_of_nat (48 + Z.to_nat c); ascii_of_nat (48 + Z.to_nat d)]
          = Some (mkCombination a b c d)).
  { unfold playerGuess, guess_digit, string_at. cbn [nth_error option_map].
    now rewrite !digit_char_value by lia. }
  split; [exact Hguess|].
  cbn [humanPlayer]. unfold humanPlayer_round.
  rewrite (read_token_token _ w rest []).
  - rewrite Hguess.
    replace (calculateScore (mkCombination a b c d) (mkCombination a b c d))
      with (mkScore 4 0); [reflexivity|].
    unfold calculateScore, positions, score_loop, score_position. simpl.
    now rewrite !Z.eqb_refl.
  - discriminate.
  - cbn [forallb]. now rewrite !digit_char_nonspace by lia.
  - exact Hw.
Qed.

Lemma show_guess_read_back_witness :
  playerGuess (list_ascii_of_string (show_guess (mkCombination 0 9 4 7)))
  = Some (mkCombination 0 9 4 7).
Proof.
  apply (show_guess_read_back (mkCombination 0 9 4 7) " "%char [] 0).
  - unfold digits_in_range. simpl. lia.
  - reflexivity.
Defined.

(** ** menu *)

(** X15: whatever [menu] returns is at most 2; nothing keeps it from
    returning a negative number. *)
Theorem menu_at_most_two (fuel : nat) :
  forall (indeterminate choice : Z) (s s' : istream),
    menu fuel indeterminate s = Some (choice, s') -> choice <= 2.
Proof.
  induction fuel as [|fuel IH]; intros ind choice s s'; simpl;
    [discriminate|].
  destruct (read_int s ind) as [c s1].
  destruct (Z.gtb_spec c 2) as [Hgt|Hle].
  - apply IH.
  - intros H. injection H as <- <-. exact Hle.
Qed.

Lemma menu_at_most_two_witness : -1 <= 2.
Proof.
  apply (menu_at_most_two 1 17 (-1)
           (stream_of ("-1" ++ newline)%string)
           (mkIstream (list_ascii_of_string newline) false false)).
  reflexivity.
Defined.

(** ** From the level to the secret *)

(** X16: for a level that [getDifficultyLevel] has returned, the list that
    [main] generates is not empty and holds between 24 and 5040
    combinations, so that every index the selection can draw is within
    bounds and selects a valid combination of that level; the stream is not
    in a failed state. *)
Theorem level_to_selection (fuel : nat) (s s' : istream) (level : Z)
    (prompts : nat) :
  getDifficultyLevel fuel s = Some (level, s', prompts) ->
  fail s' = false
  /\ generateAllCombinations level <> []
  /\ 24 <= Z.of_nat (length (generateAllCombinations level)) <= 5040
  /\ forall drawn,
       In drawn (outcomes (selection_distribution
                             (generateAllCombinations level))) ->
       exists c,
         selectRandomCombination (generateAllCombinations level) drawn
         = Some c
         /\ valid_combination level c.
Proof.
  intros H. unfold getDifficultyLevel in H.
  apply level_loop_in_range in H as [Hrange Hfail].
  assert (Hlen : 24 <= Z.of_nat (length (generateAllCombinations level))
                 <= 5040).
  { rewrite generateAllCombinations_length by lia.
    assert (E : level = 4 \/ level = 5 \/ level = 6 \/ level = 7
                \/ level = 8 \/ level = 9 \/ level = 10) by lia.
    destruct E as [-> | [-> | [-> | [-> | [-> | [-> | ->]]]]]]; simpl; lia. }
  assert (Hne : generateAllCombinations level <> [])
    by (intros E; rewrite E in Hlen; simpl in Hlen; lia).
  assert (Hsize : (vector_size (generateAllCombinations level)
                   < size_modulus)%N).
  { unfold vector_size, size_modulus.
    change (2 ^ 64)%N with 18446744073709551616%N. lia. }
  split; [exact Hfail|]. split; [exact Hne|]. split; [exact Hlen|].
  intros drawn Hin. rewrite selection_outcomes in Hin by assumption.
  apply in_map_iff in Hin as (n & <- & Hn). apply in_seq in Hn.
  unfold selectRandomCombination. rewrite Nat2N.id.
  destruct (nth_error (generateAllCombinations level) n) as [c|] eqn:E.
  - exists c. split; [reflexivity|].
    apply generateAllCombinations_In. eapply nth_error_In; eassumption.
  - apply nth_error_None in E. lia.
Qed.

Lemma level_to_selection_witness :
  generateAllCombinations 7 <> [].
Proof.
  apply (level_to_selection 1
           (stream_of ("abc" ++ newline ++ "7" ++ newline)%string)
           (mkIstream (list_ascii_of_string newline) false false) 7 1).
  reflexivity.
Defined.

(** ** Edges of the selection and of the conversion *)

(** X17: on an empty list the distribution that [selectRandomCombination]
    builds ranges from 0 to 2^64 - 1, every index drawn reads outside the
    vector, and neither a move nor a game of the computer is defined. *)
Theorem selection_on_empty_list (dis_gen : CombinationList -> N)
    (drawn : N) (s : istream) (fuel : nat) :
  selection_distribution [] = mkDistribution 0 18446744073709551615
  /\ selectRandomCombination [] drawn = None
  /\ performComputerMove dis_gen [] s = None
  /\ computerPlayer fuel dis_gen [] s = None.
Proof.
  assert (Hsel : forall n, selectRandomCombination [] n = None).
  { intros n. unfold selectRandomCombination. now destruct (N.to_nat n). }
  assert (Hmove : performComputerMove dis_gen [] s = None)
    by (unfold performComputerMove; now rewrite Hsel).
  split; [reflexivity|]. split; [apply Hsel|]. split; [exact Hmove|].
  destruct fuel; cbn [computerPlayer]; [reflexivity | now rewrite Hmove].
Qed.

(** X18: the human player's conversion is defined exactly for an input of
    at least three characters; it looks at the first four characters only,
    and for an input of three characters the fourth digit is -48, the
    terminating null character minus ['0']. *)
Theorem playerGuess_defined_iff (input : list ascii) :
  (playerGuess input <> None <-> (3 <= length input)%nat)
  /\ (forall a b c d rest,
         input = a :: b :: c :: d :: rest ->
         playerGuess input = playerGuess [a; b; c; d])
  /\ (forall g, length input = 3%nat -> playerGuess input = Some g ->
                d3 g = -48).
Proof.
  split; [|split].
  - destruct input as [|a [|b [|c [|d rest]]]]; simpl;
      (split; [intros H; try lia; now contradiction H | intros H; try lia]);
      discriminate.
  - intros a b c d rest ->. reflexivity.
  - intros g Hlen Hg.
    destruct input as [|a [|b [|c [|d rest]]]]; try discriminate Hlen.
    unfold playerGuess in Hg. simpl in Hg. injection Hg as <-. reflexivity.
Qed.

Lemma playerGuess_defined_iff_witness :
  playerGuess (list_ascii_of_string "01234567")
  = playerGuess (list_ascii_of_string "0123")
  /\ d3 (mkCombination 0 1 2 (-48)) = -48.
Proof.
  destruct (playerGuess_defined_iff (list_ascii_of_string "01234567"))
    as (_ & Hfirst & _).
  destruct (playerGuess_defined_iff (list_ascii_of_string "012"))
    as (_ & _ & Hthree).
  split.
  - apply (Hfirst "0" "1" "2" "3" (list_ascii_of_string "4567"))%char.
    reflexivity.
  - apply Hthree; reflexivity.
Defined.
